(** * The NNEF validator front end ([parser/cpp/main.cpp])

    A shallow embedding of the validator's driver: the printing callback
    ([PrintCallback]), the atomic-operation override list ([parseAtomics])
    and [main] with its option loop, its parse-error report and its check of
    the binary tensor files.

    The program writes to two streams and opens files; those effects are
    threaded through a [World].  Library calls that can go wrong in the C++
    (a missing dictionary key, a null [char*], an index out of range) return
    a [Fault] instead of a value. *)

From Stdlib Require Import ZArith NArith List String Ascii Lia DecimalString.
From stdpp Require Import base strings gmap list.

Local Open Scope string_scope.

(** ** Streams, faults and the effect monad *)

(** What the process has done so far: the text on standard output
    ([std::cout] and [printf]), the text on standard error ([std::cerr]) and
    the paths handed to the [std::ifstream] constructor, oldest first. *)
Record World := mkWorld {
  cout : string;
  cerr : string;
  opened : list string
}.

Definition world0 : World := mkWorld "" "" [].

Inductive Fault :=
| KeyNotFound (key : string)   (* Dictionary::operator[] on an absent key *)
| NullPointer                  (* strlen of a null char* *)
| OutOfRange                   (* an index past the end of a sequence *)
| Dangling                     (* a pointer to no object *)
| Diverges.                    (* a loop that never leaves its body *)

Inductive Res (A : Type) :=
| Done (a : A)
| Raise (f : Fault).
Arguments Done {A} a.
Arguments Raise {A} f.

Definition IO (A : Type) : Type := World -> Res A * World.

Definition io_ret {A} (a : A) : IO A := fun w => (Done a, w).

Definition io_bind {A B} (k : A -> IO B) (m : IO A) : IO B :=
  fun w => match m w with
           | (Done a, w') => k a w'
           | (Raise f, w') => (Raise f, w')
           end.

#[export] Instance IO_ret : MRet IO := @io_ret.
#[export] Instance IO_bind : MBind IO := @io_bind.

Definition raise {A} (f : Fault) : IO A := fun w => (Raise f, w).

Definition out_app (w : World) (s : string) : World :=
  mkWorld (cout w +:+ s) (cerr w) (opened w).

Definition err_app (w : World) (s : string) : World :=
  mkWorld (cout w) (cerr w +:+ s) (opened w).

Definition open_app (w : World) (paths : list string) : World :=
  mkWorld (cout w) (cerr w) (opened w ++ paths).

(** [std::cout << s] *)
Definition put_out (s : string) : IO unit :=
  fun w => (Done tt, out_app w s).

(** [std::cerr << s] *)
Definition put_err (s : string) : IO unit :=
  fun w => (Done tt, err_app w s).

(** [m] ends normally and its whole effect is to add [s] to standard
    output. *)
Definition writes (m : IO unit) (s : string) : Prop :=
  forall w, m w = (Done tt, out_app w s).

(** [std::endl], as far as the text goes. *)
Definition endl : string := String "010" "".

Definition tab : string := String "009" "".

(** The range-[for] over a container. *)
Fixpoint for_each {A} (l : list A) (body : A -> IO unit) : IO unit :=
  match l with
  | [] => mret tt
  | it :: rest => body it ;; for_each rest body
  end.

(** [for ( size_t i = 0; i < n; ++i ) body(i)], counted from [i]. *)
Fixpoint for_from (i n : nat) (body : nat -> IO unit) : IO unit :=
  match n with
  | O => mret tt
  | S n' => body i ;; for_from (S i) n' body
  end.

Definition for_upto (n : nat) (body : nat -> IO unit) : IO unit :=
  for_from 0 n body.

(** [if ( c ) body] *)
Definition when_ (c : bool) (body : IO unit) : IO unit :=
  if c then body else mret tt.

(** ** The signature model ([nnef::Prototype], [nnef::Typed]) *)

(** A named, typed parameter or result; of its type the callback asks
    [isTensor()] only. *)
Module Typed.
Record t := mk { name : string; isTensor : bool }.
End Typed.

Module Prototype.
Record t := mk {
  name : string;
  params : list Typed.t;
  results : list Typed.t
}.

Definition paramCount (p : t) : nat := length (params p).
Definition resultCount (p : t) : nat := length (results p).

Definition param (p : t) (i : nat) : IO Typed.t :=
  match params p !! i with
  | Some x => mret x
  | None => raise OutOfRange
  end.

Definition result (p : t) (i : nat) : IO Typed.t :=
  match results p !! i with
  | Some x => mret x
  | None => raise OutOfRange
  end.
End Prototype.

(** ** Named mappings ([nnef::Dictionary<T>], [std::map<std::string,T>]) *)

Abbreviation Dictionary T := (gmap string T).

(** Modelled from the spec: [Dictionary<T>::operator[]] on a constant
    dictionary is declared in a header that is not part of the sources; the
    data model says that lookup by key fails with [KeyNotFound] when the key
    is absent. *)
Definition dict_at {T} (d : Dictionary T) (key : string) : IO T :=
  match d !! key with
  | Some v => mret v
  | None => raise (KeyNotFound key)
  end.

(** [std::map::emplace]: the pair is inserted only when the key is new. *)
Definition emplace {T} (key : string) (v : T) (m : gmap string T) : gmap string T :=
  match m !! key with
  | Some _ => m
  | None => <[key:=v]> m
  end.

(** Modelled from the spec: [nnef::Shape] and its comparison operators are
    declared in a header that is not part of the sources; the data model
    gives a shape as an ordered sequence of non-negative integers, two
    shapes being equal iff they have the same length and the same dimensions
    in order. *)
Definition Shape : Type := list N.

(** Modelled from the spec: [operator!=] of [nnef::Shape]. *)
Definition shape_ne (a b : Shape) : bool := negb (bool_decide (a = b)).

(** ** C strings and [std::string] operations *)

(** A [const char*]: [None] is the null pointer. *)
Definition cstr : Type := option string.

(** [std::string::operator[](0)]: the first character, or the terminating
    zero of an empty string. *)
Definition front0 (s : string) : ascii :=
  match s with
  | EmptyString => "000"%char
  | String c _ => c
  end.

(** The width of [size_t]. *)
Definition size_bits : N := 64.
Definition npos : N := (2 ^ size_bits - 1)%N.
Definition size_wrap (n : N) : N := (n mod 2 ^ size_bits)%N.

(** [std::string::find_last_of(ch)]: the index of the last occurrence, or
    [npos]. *)
Fixpoint find_last_from (i : N) (s : string) (ch : ascii) (found : N) : N :=
  match s with
  | EmptyString => found
  | String c s' =>
      find_last_from (N.succ i) s' ch (if Ascii.eqb c ch then i else found)
  end.

Definition find_last_of (s : string) (ch : ascii) : N :=
  find_last_from 0 s ch npos.

(** [std::string::substr(pos, count)]: throws when [pos] is past the end,
    otherwise the characters from [pos], at most [count] of them. *)
Definition substr (s : string) (pos count : N) : IO string :=
  let size := N.of_nat (String.length s) in
  if (size <? pos)%N then raise OutOfRange
  else mret (String.substring (N.to_nat pos) (N.to_nat (N.min count (size - pos))) s).

(** [std::string::substr(pos)]: throws when [pos] is past the end, otherwise
    the characters from [pos] to the end. *)
Definition substr_from (s : string) (pos : N) : IO string :=
  let size := N.of_nat (String.length s) in
  if (size <? pos)%N then raise OutOfRange
  else mret (String.substring (N.to_nat pos) (String.length s - N.to_nat pos) s).

(** Whether [ch] is one of the characters of [s]. *)
Fixpoint occurs (ch : ascii) (s : string) : bool :=
  match s with
  | EmptyString => false
  | String c s' => Ascii.eqb c ch || occurs ch s'
  end.

(** [printf("%u", n)] *)
Definition print_unsigned (n : N) : string :=
  NilZero.string_of_uint (N.to_uint n).

(** [argv[i]] of [main]: the array of [argc] strings ends with a null
    pointer at [argv[argc]]. *)
Definition argv_at (argv : list string) (i : nat) : IO cstr :=
  match argv !! i with
  | Some s => mret (Some s)
  | None => if (i =? length argv)%nat then mret None else raise OutOfRange
  end.

(** [std::strcmp(a, b) == 0] *)
Definition strcmp_eq (a : cstr) (b : string) : IO bool :=
  match a with
  | Some s => mret (String.eqb s b)
  | None => raise NullPointer
  end.

(** [strlen(str)], and the conversion of a [const char*] to [std::string]:
    both read through the pointer. *)
Definition strlen_deref (str : cstr) : IO string :=
  match str with
  | Some s => mret s
  | None => raise NullPointer
  end.

(** ** Splitting at white space ([std::cregex_token_iterator])

    [parseAtomics] iterates [std::cregex_token_iterator(str, end, /\s+/, -1)]:
    with submatch [-1] the iterator yields the text between the matches of
    the expression.  The first token is the text before the first match (the
    empty string when the input starts with white space, the whole input,
    empty or not, when there is no match); after the last match the rest of
    the input is a token only when it is not empty.  [\s] is the class
    [[:space:]] of the C locale. *)

Definition isspace (c : ascii) : bool :=
  let n := nat_of_ascii c in
  (n =? 32)%nat || ((9 <=? n)%nat && (n <=? 13)%nat).

(** [in_token s tok]: [tok] is the text since the last match; [in_space s]:
    the characters just before [s] are part of a match. *)
Fixpoint in_token (s : string) (tok : string) : list string :=
  match s with
  | EmptyString => [tok]
  | String c s' =>
      if isspace c then tok :: in_space s'
      else in_token s' (tok +:+ String c "")
  end
with in_space (s : string) : list string :=
  match s with
  | EmptyString => []
  | String c s' =>
      if isspace c then in_space s'
      else in_token s' (String c "")
  end.

Definition regex_tokens (s : string) : list string := in_token s "".

(** ** [parseAtomics] *)

Definition atomics_diagnostic : string :=
  "atomic op must be marked with '+' or '-' for addition to or removal from the list of standard ops".

(** The body of the [while] loop, once per token the iterator yields. *)
Fixpoint parseAtomics_loop (tokens : list string) (atomics : gmap string bool)
  : IO (gmap string bool) :=
  match tokens with
  | [] => mret atomics
  | token :: rest =>
      let ch := front0 token in
      if Ascii.eqb ch "+" || Ascii.eqb ch "-" then
        name ← substr_from token 1 ;
        parseAtomics_loop rest (emplace name (Ascii.eqb ch "+") atomics)
      else
        put_out atomics_diagnostic ;; put_out endl ;;
        parseAtomics_loop rest atomics
  end.

(** [parseAtomics] *)
Definition parseAtomics (str : cstr) : IO (gmap string bool) :=
  s ← strlen_deref str ;
  parseAtomics_loop (regex_tokens s) ∅.

(** ** Source positions and parse errors ([nnef::Position], [nnef::Error]) *)

(** A position points to the position it was expanded from; [None] is the
    null pointer.  The positions an error refers to live in a store. *)
Definition addr : Type := N.

Module Position.
Record t := mk {
  line : N;
  column : N;
  origin : option addr
}.
End Position.

Module Error.
Record t := mk {
  what : string;
  position : Position.t
}.
End Error.

Abbreviation Store := (gmap addr Position.t).

(** [printf("... evaluated from [%u:%u]\n", origin->line, origin->column)] *)
Definition evaluated_from (p : Position.t) : string :=
  "... evaluated from [" +:+ print_unsigned (Position.line p) +:+ ":"
    +:+ print_unsigned (Position.column p) +:+ "]" +:+ endl.

(** [while ( origin ) { printf(...); origin = origin->origin; }].  The loop
    has no bound of its own; [fuel] counts the iterations it is given, and
    running out of them is reported as [Diverges]. *)
Fixpoint walk_origins (fuel : nat) (mem : Store) (origin : option addr) : IO unit :=
  match origin with
  | None => mret tt
  | Some a =>
      match fuel with
      | O => raise Diverges
      | S fuel' =>
          match mem !! a with
          | None => raise Dangling
          | Some p =>
              put_out (evaluated_from p) ;;
              walk_origins fuel' mem (Position.origin p)
          end
      end
  end.

(** The [catch] block of [main].  A walk that visits more positions than
    the store holds has come back to one of them and never ends; this many
    iterations are enough for every chain that does end. *)
Definition report_error (mem : Store) (e : Error.t) : IO unit :=
  let pos := Error.position e in
  put_out ("Parse error: [" +:+ print_unsigned (Position.line pos) +:+ ":"
             +:+ print_unsigned (Position.column pos) +:+ "] "
             +:+ Error.what e +:+ endl) ;;
  walk_origins (S (size mem)) mem (Position.origin pos).

(** [nnef::TensorHeader], of which [main] reads the shape only. *)
Record TensorHeader := mkTensorHeader { shape : Shape }.

Inductive ParserKind :=
| FlatParser
| CompParser (layers : bool).

(** What [main] finds after [parser->parse(is, callback)]: the exception it
    caught, if any, with the store its positions live in, and the entries of
    [callback.variableShapes()] in the order the range-[for] visits them. *)
Record Parsed := mkParsed {
  thrown : option Error.t;
  memory : Store;
  variableShapes : list (string * Shape)
}.

Section Validator.

(** *** External collaborators *)

(** [nnef::Value] and its [operator<<]. *)
Context {Value : Type}.
Variable print_value : Value -> string.

(** [operator<<] of [nnef::Shape]. *)
Variable print_shape : Shape -> string.

(** The built-in classification, [nnef::Parser::Callback::isAtomic]. *)
Variable Callback_isAtomic : Prototype.t -> Dictionary Value -> bool.

(** The virtual methods of [nnef::Parser::Callback]. *)
Record Callback := mkCallback {
  cb_beginGraph : Prototype.t -> IO unit;
  cb_endGraph : Prototype.t -> Dictionary Shape -> IO unit;
  cb_operation : Prototype.t -> Dictionary Value -> Dictionary Shape -> IO unit;
  cb_isAtomic : Prototype.t -> Dictionary Value -> bool
}.

(** Files: what opening a path for reading gives, and the binary codec
    [nnef::read_tensor_header]. *)
Context {File : Type}.
Variable files : string -> option File.
Variable read_tensor_header : File -> option TensorHeader.

(** [nnef::Parser::parse], of the flat or the compositional parser. *)
Variable parse : ParserKind -> File -> Callback -> IO Parsed.

(** *** [PrintCallback] *)

(** [PrintCallback::beginGraph] *)
Definition beginGraph (proto : Prototype.t) : IO unit :=
  put_out "graph " ;; put_out (Prototype.name proto) ;; put_out "( " ;;
  for_upto (Prototype.paramCount proto) (fun i =>
    param ← Prototype.param proto i ;
    when_ (negb (i =? 0)%nat) (put_out ", ") ;;
    put_out (Typed.name param)) ;;
  put_out " ) -> ( " ;;
  for_upto (Prototype.resultCount proto) (fun i =>
    result ← Prototype.result proto i ;
    when_ (negb (i =? 0)%nat) (put_out ", ") ;;
    put_out (Typed.name result)) ;;
  put_out " )" ;; put_out endl ;; put_out "{" ;; put_out endl.

(** [PrintCallback::endGraph] *)
Definition endGraph (proto : Prototype.t) (shapes : Dictionary Shape) : IO unit :=
  put_out "}" ;; put_out endl.

(** [PrintCallback::operation] *)
Definition operation (proto : Prototype.t) (args : Dictionary Value)
    (shapes : Dictionary Shape) : IO unit :=
  put_out tab ;;
  for_upto (Prototype.resultCount proto) (fun i =>
    result ← Prototype.result proto i ;
    when_ (negb (i =? 0)%nat) (put_out ", ") ;;
    v ← dict_at args (Typed.name result) ;
    put_out (print_value v)) ;;
  put_out " = " ;; put_out (Prototype.name proto) ;; put_out "(" ;;
  for_upto (Prototype.paramCount proto) (fun i =>
    param ← Prototype.param proto i ;
    when_ (negb (i =? 0)%nat) (put_out ", ") ;;
    when_ (negb (Typed.isTensor param))
      (put_out (Typed.name param) ;; put_out " = ") ;;
    v ← dict_at args (Typed.name param) ;
    put_out (print_value v)) ;;
  put_out ")" ;; put_out endl.

(** [PrintCallback::isAtomic] *)
Definition isAtomic (atomics : gmap string bool) (proto : Prototype.t)
    (args : Dictionary Value) : bool :=
  match atomics !! Prototype.name proto with
  | Some it => it
  | None => Callback_isAtomic proto args
  end.

Definition PrintCallback (atomics : gmap string bool) : Callback :=
  {| cb_beginGraph := beginGraph;
     cb_endGraph := endGraph;
     cb_operation := operation;
     cb_isAtomic := isAtomic atomics |}.

(** *** [main] *)

Definition usage : string :=
  "Usage: nnef-validator <network-structure.nnef> [--flat] [--layers] [--binary]" +:+ endl
  +:+ endl
  +:+ "Description of options:" +:+ endl
  +:+ "--flat: use flat parser instead of compositional" +:+ endl
  +:+ "--layers: enable predefined layer level fragments" +:+ endl
  +:+ "--binary: check binary data files for variables" +:+ endl
  +:+ "--atomics: op names to add/remove from atomic ops" +:+ endl
  +:+ "           default list includes standard ops" +:+ endl
  +:+ "           e.g. +op1 adds op1, -op2 removes op2" +:+ endl.

(** The locals [flat], [layers], [binary] and [atomics]. *)
Record Options := mkOptions {
  flat : bool;
  layers : bool;
  binary : bool;
  atomics : gmap string bool
}.

Definition options0 : Options := mkOptions false false false ∅.

(** [for ( int i = 2; i < argc; ++i )], whose body moves [i] once more
    when it reads the value of [--atomics]. *)
Fixpoint options_loop (fuel : nat) (argv : list string) (i : nat) (o : Options)
  : IO Options :=
  if (i <? length argv)%nat then
    match fuel with
    | O => raise Diverges
    | S fuel' =>
        a ← argv_at argv i ;
        is_flat ← strcmp_eq a "--flat" ;
        if is_flat : bool then
          options_loop fuel' argv (S i) (mkOptions true (layers o) (binary o) (atomics o))
        else
        is_layers ← strcmp_eq a "--layers" ;
        if is_layers : bool then
          options_loop fuel' argv (S i) (mkOptions (flat o) true (binary o) (atomics o))
        else
        is_binary ← strcmp_eq a "--binary" ;
        if is_binary : bool then
          options_loop fuel' argv (S i) (mkOptions (flat o) (layers o) true (atomics o))
        else
        is_atomics ← strcmp_eq a "--atomics" ;
        if is_atomics : bool then
          value ← argv_at argv (S i) ;
          parsed ← parseAtomics value ;
          options_loop fuel' argv (S (S i)) (mkOptions (flat o) (layers o) (binary o) parsed)
        else
          text ← strlen_deref a ;
          put_err "unrecognized option: " ;; put_err text ;; put_err endl ;;
          options_loop fuel' argv (S i) o
    end
  else mret o.

(** [std::ifstream s(path)]; [None] when [!s]. *)
Definition ifstream (path : string) : IO (option File) :=
  fun w => (Done (files path), open_app w [path]).

(** [filename.substr(0, filename.find_last_of('/') + 1) + name + ".dat"] *)
Definition binaryFilename_of (filename name : string) : IO string :=
  dir ← substr filename 0 (size_wrap (find_last_of filename "/" + 1)) ;
  mret (dir +:+ name +:+ ".dat").

(** The body of the loop over [callback.variableShapes()]. *)
Definition check_tensor (filename : string) (it : string * Shape) : IO unit :=
  binaryFilename ← binaryFilename_of filename it.1 ;
  bin ← ifstream binaryFilename ;
  match bin with
  | None =>
      put_err "Could not open file: " ;; put_err binaryFilename ;; put_err endl
  | Some bin =>
      match read_tensor_header bin with
      | None =>
          put_err "Failed to read binary header from file: " ;;
          put_err binaryFilename ;; put_err endl
      | Some header =>
          when_ (shape_ne (shape header) it.2)
            (put_err "Shape " ;; put_err (print_shape (shape header)) ;;
             put_err " in tensor file '" ;; put_err binaryFilename ;;
             put_err "' does not match shape " ;; put_err (print_shape it.2) ;;
             put_err " defined in network structure" ;; put_err endl)
      end
  end.

(** The [try] block of [main] and its [catch]. *)
Definition parse_and_report (o : Options) (is_ : File) : IO Parsed :=
  let callback := PrintCallback (atomics o) in
  let parser := if flat o then FlatParser else CompParser (layers o) in
  r ← parse parser is_ callback ;
  match thrown r with
  | None => put_out "Parse succeeded" ;; put_out endl
  | Some e => report_error (memory r) e
  end ;;
  mret r.

(** The block [if ( binary ) { for ( auto it : callback.variableShapes() )
    ... }] of [main]. *)
Definition check_binaries (o : Options) (filename : string) (r : Parsed) : IO unit :=
  when_ (binary o) (for_each (variableShapes r) (check_tensor filename)).

(** [main], from the check of [argc] to [return]. *)
Definition main (argv : list string) : IO Z :=
  let argc := length argv in
  if (argc <? 2)%nat then
    put_out usage ;; mret 0%Z
  else
    arg1 ← argv_at argv 1 ;
    filename ← strlen_deref arg1 ;
    is_ ← ifstream filename ;
    match is_ with
    | None =>
        put_err "Could not open file: " ;; put_err filename ;; put_err endl ;;
        mret (-1)%Z
    | Some is_ =>
        o ← options_loop argc argv 2 options0 ;
        r ← parse_and_report o is_ ;
        check_binaries o filename r ;;
        mret 0%Z
    end.

(** *** The same, entry by entry *)

(** The directory part [filename.substr(0, filename.find_last_of('/') + 1)]. *)
Definition dir_of (filename : string) : string :=
  String.substring 0
    (N.to_nat (N.min (size_wrap (find_last_of filename "/" + 1))
                     (N.of_nat (String.length filename))))
    filename.

(** The path [check_tensor] opens for an entry. *)
Definition tensor_path (filename : string) (it : string * Shape) : string :=
  dir_of filename +:+ it.1 +:+ ".dat".

Definition mismatch_text (path : string) (stored declared : Shape) : string :=
  "Shape " +:+ print_shape stored +:+ " in tensor file '" +:+ path
    +:+ "' does not match shape " +:+ print_shape declared
    +:+ " defined in network structure" +:+ endl.

(** What [check_tensor] writes to standard error for an entry. *)
Definition tensor_report (filename : string) (it : string * Shape) : string :=
  let path := tensor_path filename it in
  match files path with
  | None => "Could not open file: " +:+ path +:+ endl
  | Some bin =>
      match read_tensor_header bin with
      | None => "Failed to read binary header from file: " +:+ path +:+ endl
      | Some header =>
          if shape_ne (shape header) it.2
          then mismatch_text path (shape header) it.2
          else ""
      end
  end.

(** The option loop by the arguments it has left, from [argv[i]] on. *)
Fixpoint options_of (rest : list string) (o : Options) : IO Options :=
  match rest with
  | [] => mret o
  | a :: rest' =>
      if String.eqb a "--flat" then
        options_of rest' (mkOptions true (layers o) (binary o) (atomics o))
      else if String.eqb a "--layers" then
        options_of rest' (mkOptions (flat o) true (binary o) (atomics o))
      else if String.eqb a "--binary" then
        options_of rest' (mkOptions (flat o) (layers o) true (atomics o))
      else if String.eqb a "--atomics" then
        match rest' with
        | [] => raise NullPointer
        | value :: rest'' =>
            parsed ← parseAtomics (Some value) ;
            options_of rest'' (mkOptions (flat o) (layers o) (binary o) parsed)
        end
      else
        put_err "unrecognized option: " ;; put_err a ;; put_err endl ;;
        options_of rest' o
  end.

(** Every [--atomics] the loop takes as an option has an argument after
    it. *)
Fixpoint atomics_followed (rest : list string) : bool :=
  match rest with
  | [] => true
  | a :: rest' =>
      if String.eqb a "--atomics" then
        match rest' with
        | [] => false
        | _ :: rest'' => atomics_followed rest''
        end
      else atomics_followed rest'
  end.

End Validator.

(** Items printed with [", "] before all but the first. *)
Definition separated (i : nat) (t : string) : string :=
  (if (i =? 0)%nat then "" else ", ") +:+ t.

(** The text of one argument slot of an operation line. *)
Definition argument_text {Value} (print_value : Value -> string)
    (param : Typed.t) (v : Value) : string :=
  (if Typed.isTensor param then "" else Typed.name param +:+ " = ") +:+ print_value v.

(** ** The override list, token by token *)

(** The test of [parseAtomics] on the first character of a token. *)
Definition well_marked (token : string) : bool :=
  Ascii.eqb (front0 token) "+" || Ascii.eqb (front0 token) "-".

(** The characters of a token after the first. *)
Definition token_name (token : string) : string :=
  match token with
  | EmptyString => ""
  | String _ rest => rest
  end.

(** The table [parseAtomics_loop] ends with. *)
Fixpoint table_after (tokens : list string) (atomics : gmap string bool)
  : gmap string bool :=
  match tokens with
  | [] => atomics
  | token :: rest =>
      table_after rest
        (if well_marked token
         then emplace (token_name token) (Ascii.eqb (front0 token) "+") atomics
         else atomics)
  end.

(** [n] copies of the diagnostic line. *)
Fixpoint diagnostics (n : nat) : string :=
  match n with
  | O => ""
  | S n' => atomics_diagnostic +:+ endl +:+ diagnostics n'
  end.

(** The tokens that get a diagnostic. *)
Definition rejected (tokens : list string) : list string :=
  List.filter (fun t => negb (well_marked t)) tokens.

(** ** Origin chains *)

(** [origin_chain mem origin ps]: following the pointers from [origin]
    visits the positions [ps], innermost first, and then finds the null
    pointer.  Only a finite chain without a cycle has such a list. *)
Inductive origin_chain (mem : Store) : option addr -> list Position.t -> Prop :=
| chain_end : origin_chain mem None []
| chain_link (a : addr) (p : Position.t) (ps : list Position.t) :
    mem !! a = Some p ->
    origin_chain mem (Position.origin p) ps ->
    origin_chain mem (Some a) (p :: ps).

(** ** Sample inputs *)

Definition f_xy_z : Prototype.t :=
  Prototype.mk "f" [Typed.mk "x" true; Typed.mk "y" true] [Typed.mk "z" true].

Definition g_empty : Prototype.t := Prototype.mk "g" [] [].

Definition add_abc : Prototype.t :=
  Prototype.mk "add" [Typed.mk "a" true; Typed.mk "b" true] [Typed.mk "c" true].

Definition add_bindings : Dictionary string :=
  <["a" := "t1"]> (<["b" := "t2"]> (<["c" := "t3"]> ∅)).

Definition softmax_axis : Prototype.t :=
  Prototype.mk "softmax" [Typed.mk "x" true; Typed.mk "axis" false] [Typed.mk "y" true].

Definition softmax_bindings : Dictionary string :=
  <["x" := "t1"]> (<["axis" := "1"]> (<["y" := "t2"]> ∅)).

(** An error at [3:5], expanded from [10:2], itself expanded from [1:1]. *)
Definition store_3 : Store :=
  <[1%N := Position.mk 10 2 (Some 2%N)]> (<[2%N := Position.mk 1 1 None]> ∅).

Definition error_3 : Error.t :=
  Error.mk "undefined identifier" (Position.mk 3 5 (Some 1%N)).

(** Two positions that name each other as origin. *)
Definition store_cyclic : Store :=
  <[1%N := Position.mk 10 2 (Some 2%N)]> (<[2%N := Position.mk 1 1 (Some 1%N)]> ∅).

(** A file system with a graph description and some tensor files: [t1]
    and [t3] hold the shapes the graph declares, [t4] another shape, [t5]
    no header; there is no [t2]. *)
Inductive SampleFile :=
| Description
| Tensor (header : option TensorHeader).

Definition sample_read_tensor_header (f : SampleFile) : option TensorHeader :=
  match f with
  | Description => None
  | Tensor header => header
  end.

Definition sample_files (path : string) : option SampleFile :=
  if String.eqb path "models/net.nnef" then Some Description
  else if String.eqb path "models/t1.dat"
       then Some (Tensor (Some (mkTensorHeader [1; 3; 224; 224]%N)))
  else if String.eqb path "models/t3.dat"
       then Some (Tensor (Some (mkTensorHeader [10]%N)))
  else if String.eqb path "models/t4.dat"
       then Some (Tensor (Some (mkTensorHeader [1; 3; 225; 224]%N)))
  else if String.eqb path "models/t5.dat" then Some (Tensor None)
  else None.

Definition sample_print_shape (s : Shape) : string :=
  "[" +:+ String.concat "," (map print_unsigned s) +:+ "]".

Definition sample_isAtomic (proto : Prototype.t) (args : Dictionary string) : bool :=
  String.eqb (Prototype.name proto) "conv".

(** The run [nnef-validator models/net.nnef --binary]: the options the loop
    ends with, and the states after opening the description and after the
    parse phase of either sample parser. *)
Definition argv_binary : list string :=
  ["nnef-validator"; "models/net.nnef"; "--binary"].

Definition options_binary : Options := mkOptions false false true ∅.

Definition parsed_ok : Parsed :=
  mkParsed None ∅ [("t1", [1; 3; 224; 224]%N); ("t2", [5]%N); ("t3", [10]%N)].

Definition parsed_error : Parsed :=
  mkParsed (Some error_3) store_3 [("t2", [5]%N)].

Definition world_opened : World := open_app world0 ["models/net.nnef"].

Definition world_parsed_ok : World :=
  out_app world_opened
    ("graph f( x, y ) -> ( z )" +:+ endl +:+ "{" +:+ endl
       +:+ tab +:+ "t3 = add(t1, t2)" +:+ endl
       +:+ "}" +:+ endl +:+ "Parse succeeded" +:+ endl).

Definition world_parsed_error : World :=
  out_app world_opened
    ("graph f( x, y ) -> ( z )" +:+ endl +:+ "{" +:+ endl
       +:+ "Parse error: [3:5] undefined identifier" +:+ endl
       +:+ "... evaluated from [10:2]" +:+ endl
       +:+ "... evaluated from [1:1]" +:+ endl).

(** A parser run that accepts a graph with one operation and has recorded
    three variables. *)
Definition sample_parse_ok (kind : ParserKind) (is_ : SampleFile)
    (callback : @Callback string) : IO Parsed :=
  cb_beginGraph callback f_xy_z ;;
  cb_operation callback add_abc add_bindings ∅ ;;
  cb_endGraph callback f_xy_z ∅ ;;
  mret parsed_ok.

(** A parser run that has recorded one variable when it throws. *)
Definition sample_parse_error (kind : ParserKind) (is_ : SampleFile)
    (callback : @Callback string) : IO Parsed :=
  cb_beginGraph callback f_xy_z ;;
  mret parsed_error.

Definition sample_main (parse : ParserKind -> SampleFile -> @Callback string -> IO Parsed)
    (argv : list string) : IO Z :=
  main id sample_print_shape sample_isAtomic sample_files
    sample_read_tensor_header parse argv.

(** ** Views of the override list and of the options *)

(** The boolean of the first marked token named [name], if there is one. *)
Fixpoint first_mark (name : string) (tokens : list string) : option bool :=
  match tokens with
  | [] => None
  | token :: rest =>
      if well_marked token && String.eqb (token_name token) name
      then Some (Ascii.eqb (front0 token) "+")
      else first_mark name rest
  end.

(** No character of [s] is white space. *)
Fixpoint no_space (s : string) : bool :=
  match s with
  | EmptyString => true
  | String c s' => negb (isspace c) && no_space s'
  end.

(** Every character of [s] is white space. *)
Fixpoint blank (s : string) : bool :=
  match s with
  | EmptyString => true
  | String c s' => isspace c && blank s'
  end.

(** The names of the marked tokens, in order. *)
Definition marked_names (tokens : list string) : list string :=
  map token_name (List.filter well_marked tokens).

(** One of the three options without a value. *)
Definition is_flag (a : string) : bool :=
  String.eqb a "--flat" || String.eqb a "--layers" || String.eqb a "--binary".

(** What the option loop writes to standard error for arguments none of
    which is [--atomics]. *)
Definition unrecognized_text (rest : list string) : string :=
  String.concat ""
    (map (fun a => "unrecognized option: " +:+ a +:+ endl)
       (List.filter (fun a => negb (is_flag a)) rest)).

(** A parser run that hands the callback an operation one of whose
    parameters has no binding. *)
Definition sample_parse_unbound (kind : ParserKind) (is_ : SampleFile)
    (callback : @Callback string) : IO Parsed :=
  cb_beginGraph callback f_xy_z ;;
  cb_operation callback add_abc (delete "b" add_bindings) ∅ ;;
  cb_endGraph callback f_xy_z ∅ ;;
  mret parsed_ok.

(** * Properties *)

(** ** Strings and the effect monad *)

Lemma append_cons (x : ascii) (a b : string) :
  String x a +:+ b = String x (a +:+ b).
Proof. reflexivity. Qed.

Lemma append_nil_l (a : string) : "" +:+ a = a.
Proof. reflexivity. Qed.

Lemma append_assoc (a b c : string) : (a +:+ b) +:+ c = a +:+ (b +:+ c).
Proof.
  induction a as [|x a IH]; [reflexivity |].
  rewrite !append_cons. f_equal. exact IH.
Qed.

Lemma append_nil_r (a : string) : a +:+ "" = a.
Proof.
  induction a as [|x a IH]; [reflexivity |].
  rewrite append_cons. f_equal. exact IH.
Qed.

Lemma out_app_nil (w : World) : out_app w "" = w.
Proof. destruct w; unfold out_app; cbn [cout cerr opened]. f_equal. apply append_nil_r. Qed.

Lemma out_app_app (w : World) (a b : string) :
  out_app (out_app w a) b = out_app w (a +:+ b).
Proof. unfold out_app; cbn [cout cerr opened]. f_equal. apply append_assoc. Qed.

Lemma err_app_nil (w : World) : err_app w "" = w.
Proof. destruct w; unfold err_app; cbn [cout cerr opened]. f_equal. apply append_nil_r. Qed.

Lemma err_app_app (w : World) (a b : string) :
  err_app (err_app w a) b = err_app w (a +:+ b).
Proof. unfold err_app; cbn [cout cerr opened]. f_equal. apply append_assoc. Qed.

Lemma bind_run {A B} (m : IO A) (k : A -> IO B) (w : World) :
  (m ≫= k) w = match m w with
               | (Done a, w') => k a w'
               | (Raise f, w') => (Raise f, w')
               end.
Proof. reflexivity. Qed.

Lemma bind_done {A B} (m : IO A) (k : A -> IO B) (w w' : World) (a : A) :
  m w = (Done a, w') -> (m ≫= k) w = k a w'.
Proof. intros H. rewrite bind_run, H. reflexivity. Qed.

Lemma bind_raise {A B} (m : IO A) (k : A -> IO B) (w w' : World) (f : Fault) :
  m w = (Raise f, w') -> (m ≫= k) w = (Raise f, w').
Proof. intros H. rewrite bind_run, H. reflexivity. Qed.

Lemma put_out_bind {B} (s : string) (k : unit -> IO B) (w : World) :
  (put_out s ≫= k) w = k tt (out_app w s).
Proof. reflexivity. Qed.

Lemma put_err_bind {B} (s : string) (k : unit -> IO B) (w : World) :
  (put_err s ≫= k) w = k tt (err_app w s).
Proof. reflexivity. Qed.

Lemma ret_bind {A B} (a : A) (k : A -> IO B) (w : World) :
  (mret a ≫= k) w = k a w.
Proof. reflexivity. Qed.

Lemma ret_run {A} (a : A) (w : World) : (mret a : IO A) w = (Done a, w).
Proof. reflexivity. Qed.

Lemma writes_ret : writes (mret tt) "".
Proof. intros w. now rewrite out_app_nil. Qed.

Lemma writes_put (s : string) : writes (put_out s) s.
Proof. intros w. reflexivity. Qed.

Lemma writes_seq (m1 m2 : IO unit) (a b : string) :
  writes m1 a -> writes m2 b -> writes (m1 ;; m2) (a +:+ b).
Proof.
  intros H1 H2 w. rewrite (bind_done _ _ _ _ _ (H1 w)), H2.
  now rewrite out_app_app.
Qed.

Lemma writes_when (c : bool) (m : IO unit) (a : string) :
  writes m a -> writes (when_ c m) (if c then a else "").
Proof. intros H. destruct c; [exact H | apply writes_ret]. Qed.

Lemma writes_ext (m : IO unit) (a b : string) : a = b -> writes m a -> writes m b.
Proof. now intros ->. Qed.

Create HintDb writes.
#[local] Hint Resolve writes_ret writes_put writes_seq writes_when : writes.

Lemma concat_empty_cons (x : string) (l : list string) :
  String.concat "" (x :: l) = x +:+ String.concat "" l.
Proof. destruct l; [symmetry; apply append_nil_r | reflexivity]. Qed.

Lemma concat_sep_cons2 (sep x y : string) (l : list string) :
  String.concat sep (x :: y :: l) = x +:+ sep +:+ String.concat sep (y :: l).
Proof. reflexivity. Qed.

(** The text of a counted loop is the text of its rounds, in order. *)
Lemma writes_for_from (body : nat -> IO unit) (texts : list string) (i : nat) :
  (forall k t, texts !! k = Some t -> writes (body (i + k)) t) ->
  writes (for_from i (length texts) body) (String.concat "" texts).
Proof.
  revert i. induction texts as [|t texts IH]; intros i Hbody.
  - apply writes_ret.
  - rewrite concat_empty_cons. cbn [length for_from]. apply writes_seq.
    + specialize (Hbody 0 t eq_refl). now rewrite Nat.add_0_r in Hbody.
    + apply IH. intros k t' Hk. specialize (Hbody (S k) t' Hk).
      now replace (S i + k) with (i + S k) by lia.
Qed.

Lemma concat_tail_separated (ts : list string) (i : nat) :
  String.concat "" (imap (fun k => separated (S i + k)) ts)
  = String.concat "" (map (fun t => ", " +:+ t) ts).
Proof.
  revert i. induction ts as [|t ts IH]; intros i; [reflexivity |].
  cbn [imap map]. rewrite !concat_empty_cons. f_equal.
  rewrite <- (IH (S i)). reflexivity.
Qed.

Lemma concat_cons_sep (t : string) (ts : list string) :
  String.concat ", " (t :: ts)
  = t +:+ String.concat "" (map (fun t => ", " +:+ t) ts).
Proof.
  revert t. induction ts as [|t' ts IH]; intros t.
  - cbn. now rewrite append_nil_r.
  - rewrite concat_sep_cons2, IH. cbn [map]. rewrite concat_empty_cons.
    now rewrite append_assoc.
Qed.

Lemma concat_separated (ts : list string) :
  String.concat "" (imap separated ts) = String.concat ", " ts.
Proof.
  destruct ts as [|t ts]; [reflexivity |].
  rewrite concat_cons_sep. cbn [imap]. rewrite concat_empty_cons.
  f_equal. exact (concat_tail_separated ts 0).
Qed.

(** ** The renderer *)

Lemma writes_separated_loop (body : nat -> IO unit) (ts : list string) :
  (forall k t, ts !! k = Some t -> writes (body k) (separated k t)) ->
  writes (for_upto (length ts) body) (String.concat ", " ts).
Proof.
  intros Hbody. rewrite <- concat_separated. unfold for_upto.
  rewrite <- (length_imap separated ts). apply writes_for_from.
  intros k t Hk. rewrite list_lookup_imap in Hk.
  destruct (ts !! k) as [t0|] eqn:E; [| discriminate].
  injection Hk as <-. now apply Hbody.
Qed.

Lemma writes_separator (k : nat) (m : IO unit) (t : string) :
  writes m t -> writes (when_ (negb (k =? 0)%nat) (put_out ", ") ;; m) (separated k t).
Proof.
  intros H. unfold separated. apply writes_seq; [| exact H].
  eapply writes_ext; [| apply writes_when, writes_put].
  now destruct (k =? 0)%nat.
Qed.

Lemma writes_names_params (proto : Prototype.t) :
  writes (for_upto (Prototype.paramCount proto) (fun i =>
            param ← Prototype.param proto i ;
            when_ (negb (i =? 0)%nat) (put_out ", ") ;;
            put_out (Typed.name param)))
         (String.concat ", " (map Typed.name (Prototype.params proto))).
Proof.
  unfold Prototype.paramCount.
  rewrite <- (length_map Typed.name). apply writes_separated_loop.
  intros k t Hk. rewrite list_lookup_fmap in Hk.
  unfold Prototype.param.
  destruct (Prototype.params proto !! k) as [x|]; [| discriminate].
  injection Hk as <-. apply (writes_separator k), writes_put.
Qed.

Lemma writes_names_results (proto : Prototype.t) :
  writes (for_upto (Prototype.resultCount proto) (fun i =>
            result ← Prototype.result proto i ;
            when_ (negb (i =? 0)%nat) (put_out ", ") ;;
            put_out (Typed.name result)))
         (String.concat ", " (map Typed.name (Prototype.results proto))).
Proof.
  unfold Prototype.resultCount.
  rewrite <- (length_map Typed.name). apply writes_separated_loop.
  intros k t Hk. rewrite list_lookup_fmap in Hk.
  unfold Prototype.result.
  destruct (Prototype.results proto !! k) as [x|]; [| discriminate].
  injection Hk as <-. apply (writes_separator k), writes_put.
Qed.

(** C3, as the code has it: [beginGraph] writes the header
    [graph <name>( <p0>, <p1>, ... ) -> ( <r0>, <r1>, ... )] with the names
    of the parameters and of the results only, separated by a comma and a
    space with none after the last, then ends the line and writes the
    opening brace on a line of its own. *)
Theorem beginGraph_text (proto : Prototype.t) :
  writes (beginGraph proto)
    ("graph " +:+ Prototype.name proto +:+ "( "
       +:+ String.concat ", " (map Typed.name (Prototype.params proto))
       +:+ " ) -> ( "
       +:+ String.concat ", " (map Typed.name (Prototype.results proto))
       +:+ " )" +:+ endl +:+ "{" +:+ endl).
Proof.
  unfold beginGraph.
  repeat (apply writes_seq; [first [apply writes_put | apply writes_names_params
                                   | apply writes_names_results] |]).
  apply writes_put.
Qed.

(** C3, the claimed text refuted: for [f] with parameters [x], [y] and
    result [z] the header is not [graph f( x, y ) -> ( z ) {]; the brace is
    not on the header's line. *)
Lemma beginGraph_f_brace_not_on_header_line :
  ~ writes (beginGraph f_xy_z) "graph f( x, y ) -> ( z ) {".
Proof. intros H. specialize (H world0). vm_compute in H. discriminate H. Qed.

Example beginGraph_f :
  beginGraph f_xy_z world0
  = (Done tt, out_app world0 ("graph f( x, y ) -> ( z )" +:+ endl +:+ "{" +:+ endl)).
Proof. reflexivity. Qed.

Example beginGraph_g_empty :
  beginGraph g_empty world0
  = (Done tt, out_app world0 ("graph g(  ) -> (  )" +:+ endl +:+ "{" +:+ endl)).
Proof. reflexivity. Qed.

Example endGraph_text (proto : Prototype.t) (shapes : Dictionary Shape) :
  writes (endGraph proto shapes) ("}" +:+ endl).
Proof. unfold endGraph. auto with writes. Qed.

Section Operation.

Context {Value : Type} (print_value : Value -> string).

Lemma writes_dict_at (args : Dictionary Value) (key : string) (v : Value) :
  args !! key = Some v ->
  writes (v' ← dict_at args key ; put_out (print_value v')) (print_value v).
Proof. intros H w. unfold dict_at. rewrite H. reflexivity. Qed.

Lemma writes_result_slots (proto : Prototype.t) (args : Dictionary Value)
    (rvals : list Value) :
  Forall2 (fun r v => args !! Typed.name r = Some v) (Prototype.results proto) rvals ->
  writes (for_upto (Prototype.resultCount proto) (fun i =>
            result ← Prototype.result proto i ;
            when_ (negb (i =? 0)%nat) (put_out ", ") ;;
            v ← dict_at args (Typed.name result) ;
            put_out (print_value v)))
         (String.concat ", " (map print_value rvals)).
Proof.
  intros Hb. unfold Prototype.resultCount.
  rewrite (Forall2_length _ _ _ Hb), <- (length_map print_value).
  apply writes_separated_loop. intros k t Hk.
  rewrite list_lookup_fmap in Hk.
  destruct (rvals !! k) as [v|] eqn:Ev; [| discriminate]. injection Hk as <-.
  destruct (Forall2_lookup_r _ _ _ _ _ Hb Ev) as (r & Er & Hr).
  unfold Prototype.result. rewrite Er.
  apply (writes_separator k), writes_dict_at, Hr.
Qed.

Lemma writes_argument_slots (proto : Prototype.t) (args : Dictionary Value)
    (pvals : list Value) :
  Forall2 (fun p v => args !! Typed.name p = Some v) (Prototype.params proto) pvals ->
  writes (for_upto (Prototype.paramCount proto) (fun i =>
            param ← Prototype.param proto i ;
            when_ (negb (i =? 0)%nat) (put_out ", ") ;;
            when_ (negb (Typed.isTensor param))
              (put_out (Typed.name param) ;; put_out " = ") ;;
            v ← dict_at args (Typed.name param) ;
            put_out (print_value v)))
         (String.concat ", "
            (zip_with (argument_text print_value) (Prototype.params proto) pvals)).
Proof.
  intros Hb. unfold Prototype.paramCount.
  assert (Hlen : length (Prototype.params proto)
                 = length (zip_with (argument_text print_value)
                             (Prototype.params proto) pvals)).
  { rewrite length_zip_with. pose proof (Forall2_length _ _ _ Hb). lia. }
  rewrite Hlen. apply writes_separated_loop. intros k t Hk.
  apply lookup_zip_with_Some in Hk as (p & v & -> & Ep & Ev).
  unfold Prototype.param. rewrite Ep.
  apply (writes_separator k).
  pose proof (Forall2_lookup_lr _ _ _ _ _ _ Hb Ep Ev) as Hp.
  eapply writes_ext; [| apply writes_seq;
    [apply writes_when, writes_seq; apply writes_put
    | apply writes_dict_at, Hp]].
  unfold argument_text. now destruct (Typed.isTensor p).
Qed.

(** C4: when the bindings hold a value for every declared result and
    parameter name, [operation] writes one line: a tab, the values bound
    to the results (looked up by the declared result names), [" = "], the
    operation's name, ["("] with no space after it, the argument slots
    and [")"]; an argument slot is the bound value, preceded by
    [declaredName = ] when the parameter is not tensor-typed; slots are
    separated by [", "]. *)
Theorem operation_line (proto : Prototype.t) (args : Dictionary Value)
    (shapes : Dictionary Shape) (rvals pvals : list Value) :
  Forall2 (fun r v => args !! Typed.name r = Some v) (Prototype.results proto) rvals ->
  Forall2 (fun p v => args !! Typed.name p = Some v) (Prototype.params proto) pvals ->
  writes (operation print_value proto args shapes)
    (tab +:+ String.concat ", " (map print_value rvals)
       +:+ " = " +:+ Prototype.name proto +:+ "("
       +:+ String.concat ", "
             (zip_with (argument_text print_value) (Prototype.params proto) pvals)
       +:+ ")" +:+ endl).
Proof.
  intros Hr Hp. unfold operation.
  repeat (apply writes_seq;
          [first [apply writes_put | now apply writes_result_slots
                 | now apply writes_argument_slots] |]).
  apply writes_put.
Qed.

End Operation.

(** C4 at the sample operation: [add(a, b) -> (c)] bound to [a = t1],
    [b = t2], [c = t3] is written as a tab and [t3 = add(t1, t2)]. *)
Lemma operation_line_add :
  Forall2 (fun r v => add_bindings !! Typed.name r = Some v)
    (Prototype.results add_abc) ["t3"]
  /\ Forall2 (fun p v => add_bindings !! Typed.name p = Some v)
       (Prototype.params add_abc) ["t1"; "t2"]
  /\ writes (operation id add_abc add_bindings ∅)
       (tab +:+ "t3 = add(t1, t2)" +:+ endl).
Proof.
  assert (Hr : Forall2 (fun r v => add_bindings !! Typed.name r = Some v)
                 (Prototype.results add_abc) ["t3"])
    by (repeat constructor).
  assert (Hp : Forall2 (fun p v => add_bindings !! Typed.name p = Some v)
                 (Prototype.params add_abc) ["t1"; "t2"])
    by (repeat constructor).
  split; [exact Hr |]. split; [exact Hp |].
  exact (operation_line id add_abc add_bindings ∅ ["t3"] ["t1"; "t2"] Hr Hp).
Defined.

Example operation_line_attribute :
  operation id softmax_axis softmax_bindings ∅ world0
  = (Done tt, out_app world0 (tab +:+ "t2 = softmax(t1, axis = 1)" +:+ endl)).
Proof. reflexivity. Qed.

(** A name the bindings lack stops the line where the lookup fails. *)
Example operation_key_not_found :
  operation id add_abc (delete "b" add_bindings) ∅ world0
  = (Raise (KeyNotFound "b"), out_app world0 (tab +:+ "t3 = add(t1, ")).
Proof. reflexivity. Qed.

(** ** The override list *)

Lemma substring_all (s : string) : String.substring 0 (String.length s) s = s.
Proof. induction s as [|c s IH]; [reflexivity |]. cbn. now rewrite IH. Qed.

Lemma substr_from_1 (c : ascii) (rest : string) (w : World) :
  substr_from (String c rest) 1 w = (Done rest, w).
Proof.
  unfold substr_from.
  assert ((N.of_nat (String.length (String c rest)) <? 1)%N = false) as ->.
  { apply N.ltb_ge. cbn [String.length]. lia. }
  cbn [String.length]. change (N.to_nat 1) with 1%nat.
  replace (S (String.length rest) - 1)%nat with (String.length rest) by lia.
  cbn [String.substring]. now rewrite substring_all.
Qed.

Lemma well_marked_cons (token : string) :
  well_marked token = true -> token = String (front0 token) (token_name token).
Proof. destruct token; [discriminate | reflexivity]. Qed.

Lemma diagnostics_snoc (n : nat) :
  diagnostics n +:+ atomics_diagnostic +:+ endl = diagnostics (S n).
Proof.
  induction n as [|n IH]; [reflexivity |].
  change (diagnostics (S n)) with (atomics_diagnostic +:+ endl +:+ diagnostics n) at 1.
  rewrite !append_assoc, IH. reflexivity.
Qed.

(** [parseAtomics_loop] never faults: it ends with [table_after] and one
    diagnostic line per rejected token. *)
Lemma parseAtomics_loop_run (tokens : list string) (m : gmap string bool) (w : World) :
  parseAtomics_loop tokens m w
  = (Done (table_after tokens m), out_app w (diagnostics (length (rejected tokens)))).
Proof.
  revert m w. induction tokens as [|token rest IH]; intros m w.
  - cbn. now rewrite out_app_nil.
  - cbn [parseAtomics_loop table_after rejected List.filter].
    fold (well_marked token). fold (rejected rest).
    destruct (well_marked token) eqn:E.
    + rewrite (well_marked_cons _ E) at 1.
      rewrite (bind_done _ _ _ _ _ (substr_from_1 _ _ w)). apply IH.
    + cbn [negb length].
      rewrite !put_out_bind, IH, !out_app_app. reflexivity.
Qed.

Lemma emplace_lookup_same {T} (k : string) (v : T) (m : gmap string T) :
  emplace k v m !! k = Some (default v (m !! k)).
Proof.
  unfold emplace. destruct (m !! k) as [x|] eqn:E; cbn.
  - exact E.
  - apply lookup_insert_eq.
Qed.

Lemma emplace_lookup_ne {T} (k k' : string) (v : T) (m : gmap string T) :
  k <> k' -> emplace k v m !! k' = m !! k'.
Proof.
  intros Hne. unfold emplace. destruct (m !! k); [reflexivity |].
  now apply lookup_insert_ne.
Qed.

Lemma emplace_present {T} (k : string) (v : T) (m : gmap string T) :
  is_Some (m !! k) -> emplace k v m = m.
Proof. intros [x Hx]. unfold emplace. now rewrite Hx. Qed.

Lemma emplace_keeps {T} (k k' : string) (v b : T) (m : gmap string T) :
  m !! k' = Some b -> emplace k v m !! k' = Some b.
Proof.
  intros H. destruct (decide (k = k')) as [->|Hne].
  - now rewrite emplace_lookup_same, H.
  - now rewrite emplace_lookup_ne.
Qed.

Lemma table_after_app (a b : list string) (m : gmap string bool) :
  table_after (a ++ b) m = table_after b (table_after a m).
Proof. revert m. induction a as [|t a IH]; intros m; [reflexivity | apply IH]. Qed.

Lemma table_after_keeps (tokens : list string) (m : gmap string bool)
    (k : string) (b : bool) :
  m !! k = Some b -> table_after tokens m !! k = Some b.
Proof.
  revert m. induction tokens as [|t tokens IH]; intros m H; [exact H |].
  cbn [table_after]. apply IH. destruct (well_marked t); [| exact H].
  now apply emplace_keeps.
Qed.

Lemma table_after_fresh (tokens : list string) (m : gmap string bool) (k : string) :
  m !! k = None ->
  (forall t, t ∈ tokens -> well_marked t = true -> token_name t <> k) ->
  table_after tokens m !! k = None.
Proof.
  revert m. induction tokens as [|t tokens IH]; intros m H Hfresh; [exact H |].
  cbn [table_after]. apply IH.
  - destruct (well_marked t) eqn:E; [| exact H].
    rewrite emplace_lookup_ne; [exact H |].
    apply Hfresh; [left | exact E].
  - intros t' Ht'. apply Hfresh. now right.
Qed.

Lemma table_after_rejected (before after : list string) (bad : string)
    (m : gmap string bool) :
  well_marked bad = false ->
  table_after (before ++ bad :: after) m = table_after (before ++ after) m.
Proof. intros E. rewrite !table_after_app. cbn [table_after]. now rewrite E. Qed.

Lemma rejected_middle (before after : list string) (bad : string) :
  well_marked bad = false ->
  length (rejected (before ++ bad :: after)) = S (length (rejected (before ++ after))).
Proof.
  intros E. unfold rejected. rewrite !List.filter_app, !length_app.
  cbn [List.filter]. rewrite E. cbn. lia.
Qed.

Lemma mark_well_marked (c : ascii) (name : string) :
  c = "+"%char \/ c = "-"%char -> well_marked (String c name) = true.
Proof. now intros [-> | ->]. Qed.

(** The first marked token of a name decides the name's entry. *)
Lemma table_after_first (before after : list string) (c : ascii) (name : string)
    (m : gmap string bool) :
  c = "+"%char \/ c = "-"%char ->
  m !! name = None ->
  (forall t, t ∈ before -> well_marked t = true -> token_name t <> name) ->
  table_after (before ++ String c name :: after) m !! name = Some (Ascii.eqb c "+").
Proof.
  intros Hc Hm Hfresh. rewrite table_after_app. cbn [table_after].
  rewrite (mark_well_marked _ _ Hc). apply table_after_keeps.
  cbn [token_name front0]. rewrite emplace_lookup_same.
  now rewrite (table_after_fresh _ _ _ Hm Hfresh).
Qed.

(** A marked token of a name that already has an entry changes nothing. *)
Lemma table_after_repeated (mid after : list string) (c : ascii) (name : string)
    (m : gmap string bool) :
  c = "+"%char \/ c = "-"%char ->
  is_Some (m !! name) ->
  table_after (mid ++ String c name :: after) m = table_after (mid ++ after) m.
Proof.
  intros Hc [b Hb]. rewrite !table_after_app. cbn [table_after].
  rewrite (mark_well_marked _ _ Hc). cbn [token_name front0].
  rewrite emplace_present; [reflexivity |].
  exists b. now apply table_after_keeps.
Qed.

Lemma rejected_marked_middle (mid after : list string) (c : ascii) (name : string) :
  c = "+"%char \/ c = "-"%char ->
  rejected (mid ++ String c name :: after) = rejected (mid ++ after).
Proof.
  intros Hc. unfold rejected. rewrite !List.filter_app. cbn [List.filter].
  fold (well_marked (String c name)). now rewrite (mark_well_marked _ _ Hc).
Qed.

Lemma parseAtomics_run (s : string) (w : World) :
  parseAtomics (Some s) w
  = (Done (table_after (regex_tokens s) ∅),
     out_app w (diagnostics (length (rejected (regex_tokens s))))).
Proof. unfold parseAtomics. cbn [strlen_deref]. rewrite ret_bind. apply parseAtomics_loop_run. Qed.

(** C2: the list [+a bad -b] gives the table [{a: true, b: false}] and one
    diagnostic line; a token that starts with neither [+] nor [-] adds one
    diagnostic line and no entry, wherever it stands among the other tokens,
    whose processing it leaves as it was; a token that starts with [+] or
    [-] maps the rest of its characters to [true] or [false] (for a name no
    earlier token has set). *)
Theorem parseAtomics_malformed_token_skipped :
  (forall w,
      parseAtomics (Some "+a bad -b") w
      = (Done (<["a" := true]> (<["b" := false]> ∅)),
         out_app w (atomics_diagnostic +:+ endl)))
  /\ (forall before bad after m w,
        well_marked bad = false ->
        exists t w',
          parseAtomics_loop (before ++ after) m w = (Done t, w')
          /\ parseAtomics_loop (before ++ bad :: after) m w
             = (Done t, out_app w' (atomics_diagnostic +:+ endl)))
  /\ (forall before c name after w,
        c = "+"%char \/ c = "-"%char ->
        (forall t, t ∈ before -> well_marked t = true -> token_name t <> name) ->
        exists t w',
          parseAtomics_loop (before ++ String c name :: after) ∅ w = (Done t, w')
          /\ t !! name = Some (Ascii.eqb c "+")).
Proof.
  split; [| split].
  - intros w. rewrite parseAtomics_run. f_equal.
  - intros before bad after m w E. do 2 eexists. split.
    + apply parseAtomics_loop_run.
    + rewrite parseAtomics_loop_run, table_after_rejected, rejected_middle by exact E.
      rewrite out_app_app, diagnostics_snoc. reflexivity.
  - intros before c name after w Hc Hfresh. do 2 eexists. split.
    + apply parseAtomics_loop_run.
    + apply table_after_first; [exact Hc | apply lookup_empty | exact Hfresh].
Qed.

(** C9: a marked token whose name an earlier marked token has already set
    is ignored without a diagnostic: the run is the same as without it, and
    the name keeps the boolean of its first token; [+a -a] gives
    [{a: true}], [-a +a] gives [{a: false}]. *)
Theorem parseAtomics_first_token_wins :
  (forall before mid after c1 c2 name m w,
      c1 = "+"%char \/ c1 = "-"%char ->
      c2 = "+"%char \/ c2 = "-"%char ->
      parseAtomics_loop (before ++ String c1 name :: mid ++ String c2 name :: after) m w
      = parseAtomics_loop (before ++ String c1 name :: mid ++ after) m w)
  /\ (forall before mid after c1 c2 name w,
        c1 = "+"%char \/ c1 = "-"%char ->
        c2 = "+"%char \/ c2 = "-"%char ->
        (forall t, t ∈ before -> well_marked t = true -> token_name t <> name) ->
        exists t w',
          parseAtomics_loop (before ++ String c1 name :: mid ++ String c2 name :: after) ∅ w
          = (Done t, w')
          /\ t !! name = Some (Ascii.eqb c1 "+"))
  /\ (forall w, parseAtomics (Some "+a -a") w = (Done (<["a" := true]> ∅), w))
  /\ (forall w, parseAtomics (Some "-a +a") w = (Done (<["a" := false]> ∅), w)).
Proof.
  split; [| split; [| split]].
  - intros before mid after c1 c2 name m w H1 H2.
    rewrite !parseAtomics_loop_run.
    rewrite !(table_after_app before). cbn [table_after].
    rewrite (mark_well_marked _ _ H1). cbn [token_name front0].
    rewrite (table_after_repeated mid after c2 name) by
      (exact H2 || (rewrite emplace_lookup_same; eauto)).
    rewrite !(app_comm_cons), !app_assoc.
    now rewrite (rejected_marked_middle _ after c2 name H2).
  - intros before mid after c1 c2 name w H1 H2 Hfresh. do 2 eexists. split.
    + apply parseAtomics_loop_run.
    + apply table_after_first; [exact H1 | apply lookup_empty | exact Hfresh].
  - intros w. rewrite parseAtomics_run. f_equal. apply out_app_nil.
  - intros w. rewrite parseAtomics_run. f_equal. apply out_app_nil.
Qed.

(** ** The classifier *)

Section Classifier.

Context {Value : Type}.
Variable Callback_isAtomic : Prototype.t -> Dictionary Value -> bool.

Lemma isAtomic_override (atomics : gmap string bool) (proto : Prototype.t)
    (args : Dictionary Value) (b : bool) :
  atomics !! Prototype.name proto = Some b ->
  isAtomic Callback_isAtomic atomics proto args = b.
Proof. intros H. unfold isAtomic. now rewrite H. Qed.

Lemma isAtomic_default (atomics : gmap string bool) (proto : Prototype.t)
    (args : Dictionary Value) :
  atomics !! Prototype.name proto = None ->
  isAtomic Callback_isAtomic atomics proto args = Callback_isAtomic proto args.
Proof. intros H. unfold isAtomic. now rewrite H. Qed.

(** C1: a name with an entry in the override table is classified by the
    entry, whatever the built-in classification says; a name with no
    entry is classified by the built-in classification; with the override
    list [-conv], a signature named [conv] is not atomic, although the
    built-in classification has it atomic. *)
Theorem isAtomic_override_precedence :
  (forall atomics proto args b,
      atomics !! Prototype.name proto = Some b ->
      isAtomic Callback_isAtomic atomics proto args = b)
  /\ (forall atomics proto args,
        atomics !! Prototype.name proto = None ->
        isAtomic Callback_isAtomic atomics proto args = Callback_isAtomic proto args)
  /\ (forall proto args w,
        Prototype.name proto = "conv" ->
        Callback_isAtomic proto args = true ->
        exists atomics,
          parseAtomics (Some "-conv") w = (Done atomics, w)
          /\ isAtomic Callback_isAtomic atomics proto args = false).
Proof.
  split; [| split].
  - apply isAtomic_override.
  - apply isAtomic_default.
  - intros proto args w Hname _. eexists. split.
    + rewrite parseAtomics_run. f_equal. apply out_app_nil.
    + apply isAtomic_override. rewrite Hname. reflexivity.
Qed.

End Classifier.

(** ** The error report *)

Lemma origin_chain_det (mem : Store) (o : option addr) (ps qs : list Position.t) :
  origin_chain mem o ps -> origin_chain mem o qs -> ps = qs.
Proof.
  intros H. revert qs. induction H as [|a p ps Ha _ IH]; intros qs Hq.
  - now inversion Hq.
  - inversion Hq as [|a' q qs' Ha' Hq' E1]; subst.
    rewrite Ha in Ha'. injection Ha' as <-. f_equal. now apply IH.
Qed.

(** A chain either never visits [a], and is a chain of the store without
    [a], or reaches [a] with no more positions left than it had. *)
Lemma origin_chain_delete (mem : Store) (o : option addr) (ps : list Position.t)
    (a : addr) :
  origin_chain mem o ps ->
  origin_chain (delete a mem) o ps
  \/ exists suffix, origin_chain mem (Some a) suffix /\ length suffix <= length ps.
Proof.
  induction 1 as [|a' p ps Ha' Hps IH].
  - left. constructor.
  - destruct (decide (a' = a)) as [->|Hne].
    + right. exists (p :: ps). split; [now constructor | reflexivity].
    + destruct IH as [IH | (suffix & Hs & Hlen)].
      * left. constructor; [| exact IH]. now rewrite lookup_delete_ne.
      * right. exists suffix. split; [exact Hs | cbn; lia].
Qed.

(** A chain is no longer than the store is large. *)
Lemma origin_chain_length (mem : Store) (o : option addr) (ps : list Position.t) :
  origin_chain mem o ps -> length ps <= size mem.
Proof.
  revert mem o. induction ps as [|p ps IH]; intros mem o H; [cbn; lia |].
  inversion H as [|a p' ps' Ha Hps]; subst.
  assert (Hpos : size mem <> 0).
  { intros E. apply map_size_empty_iff in E. subst mem. now rewrite lookup_empty in Ha. }
  destruct (origin_chain_delete _ _ _ a Hps) as [Hdel | (suffix & Hs & Hlen)].
  - apply IH in Hdel. rewrite map_size_delete_Some in Hdel by eauto. cbn. lia.
  - rewrite (origin_chain_det _ _ _ _ Hs H) in Hlen. cbn in Hlen. lia.
Qed.

Lemma walk_origins_chain (mem : Store) (o : option addr) (ps : list Position.t) :
  origin_chain mem o ps ->
  forall fuel, length ps <= fuel ->
  writes (walk_origins fuel mem o) (String.concat "" (map evaluated_from ps)).
Proof.
  induction 1 as [|a p ps Ha Hps IH]; intros fuel Hfuel.
  - destruct fuel; apply writes_ret.
  - destruct fuel as [|fuel]; [cbn in Hfuel; lia |].
    cbn [walk_origins map]. rewrite Ha, concat_empty_cons.
    apply writes_seq; [apply writes_put |]. apply IH. cbn in Hfuel. lia.
Qed.

(** The walk ends only at a null pointer. *)
Lemma walk_origins_done (fuel : nat) (mem : Store) (o : option addr) (w w' : World) :
  walk_origins fuel mem o w = (Done tt, w') ->
  exists ps, origin_chain mem o ps.
Proof.
  revert o w. induction fuel as [|fuel IH]; intros o w H.
  - destruct o; [discriminate |]. exists []. constructor.
  - destruct o as [a|]; [| exists []; constructor].
    cbn [walk_origins] in H. destruct (mem !! a) as [p|] eqn:Ha; [| discriminate].
    rewrite put_out_bind in H. apply IH in H as [ps Hps].
    exists (p :: ps). now constructor.
Qed.

(** The report ends normally only when the origin pointers end at a null
    pointer. *)
Lemma report_error_done (mem : Store) (e : Error.t) (w w' : World) :
  report_error mem e w = (Done tt, w') ->
  exists ps, origin_chain mem (Position.origin (Error.position e)) ps.
Proof.
  unfold report_error. rewrite put_out_bind. apply walk_origins_done.
Qed.

(** C5: for an error whose origin chain is finite, [ps] being the
    positions on it from the innermost expansion site outwards, the report
    is the line with the error's own position and message, once, followed
    by one [evaluated from] line per position of [ps], in that order, and
    nothing more: the walk stops at the null origin. *)
Theorem report_error_chain (mem : Store) (e : Error.t) (ps : list Position.t) :
  origin_chain mem (Position.origin (Error.position e)) ps ->
  writes (report_error mem e)
    (("Parse error: [" +:+ print_unsigned (Position.line (Error.position e)) +:+ ":"
        +:+ print_unsigned (Position.column (Error.position e)) +:+ "] "
        +:+ Error.what e +:+ endl)
       +:+ String.concat "" (map evaluated_from ps)).
Proof.
  intros H. unfold report_error. apply writes_seq; [apply writes_put |].
  apply walk_origins_chain; [exact H |].
  pose proof (origin_chain_length _ _ _ H). lia.
Qed.

(** C5 at the sample error: position [3:5] with the chain [10:2], [1:1]
    gives the error line and two [evaluated from] lines, [10:2] first. *)
Lemma report_error_chain_3 :
  origin_chain store_3 (Position.origin (Error.position error_3))
    [Position.mk 10 2 (Some 2%N); Position.mk 1 1 None]
  /\ writes (report_error store_3 error_3)
       ("Parse error: [3:5] undefined identifier" +:+ endl
          +:+ "... evaluated from [10:2]" +:+ endl
          +:+ "... evaluated from [1:1]" +:+ endl).
Proof.
  assert (H : origin_chain store_3 (Position.origin (Error.position error_3))
                [Position.mk 10 2 (Some 2%N); Position.mk 1 1 None]).
  { apply (chain_link store_3 1%N); [reflexivity |].
    apply (chain_link store_3 2%N); [reflexivity |]. apply chain_end. }
  split; [exact H |].
  exact (report_error_chain store_3 error_3 _ H).
Defined.

(** On a cycle the walk has no end. *)
Example report_error_cyclic :
  (report_error store_cyclic error_3 world0).1 = Raise Diverges
  /\ forall ps, ~ origin_chain store_cyclic (Some 1%N) ps.
Proof.
  split; [reflexivity |].
  intros ps H. apply origin_chain_length in H as Hlen.
  inversion H as [|a p ps1 Ha H1]; subst.
  vm_compute in Ha. injection Ha as <-. cbn in H1.
  inversion H1 as [|a p ps2 Ha H2]; subst.
  vm_compute in Ha. injection Ha as <-. cbn in H2.
  pose proof (origin_chain_det _ _ _ _ H H2) as E.
  apply (f_equal length) in E. cbn in E. lia.
Qed.

(** ** The check of the binary files *)

Section Binaries.

Context (print_shape : Shape -> string) {File : Type}
        (files : string -> option File)
        (read_tensor_header : File -> option TensorHeader).

Local Abbreviation check_tensor' := (check_tensor print_shape files read_tensor_header).
Local Abbreviation tensor_report' := (tensor_report print_shape files read_tensor_header).

Lemma binaryFilename_of_run (filename name : string) (w : World) :
  binaryFilename_of filename name w = (Done (dir_of filename +:+ name +:+ ".dat"), w).
Proof.
  unfold binaryFilename_of, substr, dir_of.
  assert ((N.of_nat (String.length filename) <? 0)%N = false) as ->
    by (apply N.ltb_ge; lia).
  now rewrite N.sub_0_r, ret_bind.
Qed.

(** One entry: its file is opened and its report written, and the loop
    body ends normally whatever the report is. *)
Lemma check_tensor_run (filename : string) (it : string * Shape) (w : World) :
  check_tensor' filename it w
  = (Done tt, err_app (open_app w [tensor_path filename it]) (tensor_report' filename it)).
Proof.
  unfold check_tensor, tensor_report.
  rewrite (bind_done _ _ _ _ _ (binaryFilename_of_run filename it.1 w)).
  fold (tensor_path filename it).
  unfold ifstream at 1. rewrite bind_run.
  destruct (files (tensor_path filename it)) as [bin|].
  - destruct (read_tensor_header bin) as [header|].
    + unfold when_. destruct (shape_ne (shape header) it.2).
      * rewrite !put_err_bind. unfold put_err. rewrite !err_app_app.
        reflexivity.
      * now rewrite ret_run, err_app_nil.
    + rewrite !put_err_bind. unfold put_err. now rewrite !err_app_app.
  - rewrite !put_err_bind. unfold put_err. now rewrite !err_app_app.
Qed.

Lemma for_each_check_tensor (filename : string) (entries : list (string * Shape))
    (w : World) :
  for_each entries (check_tensor' filename) w
  = (Done tt,
     mkWorld (cout w)
       (cerr w +:+ String.concat "" (map (tensor_report' filename) entries))
       (opened w ++ map (tensor_path filename) entries)).
Proof.
  revert w. induction entries as [|it entries IH]; intros w.
  - cbn. destruct w; cbn. now rewrite append_nil_r, app_nil_r.
  - cbn [for_each map]. rewrite (bind_done _ _ _ _ _ (check_tensor_run filename it w)).
    rewrite IH, concat_empty_cons. cbn [cout cerr opened err_app open_app].
    now rewrite append_assoc, <- app_assoc.
Qed.

(** *** The path of a tensor file *)

Lemma find_last_from_absent (s : string) (ch : ascii) (i found : N) :
  occurs ch s = false -> find_last_from i s ch found = found.
Proof.
  revert i found. induction s as [|c s IH]; intros i found H; [reflexivity |].
  cbn in H. apply orb_false_iff in H as [Hc Hs].
  cbn [find_last_from]. rewrite Hc. now apply IH.
Qed.

Lemma find_last_from_app (a b : string) (ch : ascii) (i found : N) :
  find_last_from i (a +:+ b) ch found
  = find_last_from (i + N.of_nat (String.length a)) b ch (find_last_from i a ch found).
Proof.
  revert i found. induction a as [|c a IH]; intros i found.
  - cbn. now rewrite N.add_0_r.
  - rewrite append_cons. cbn [find_last_from String.length]. rewrite IH.
    f_equal. lia.
Qed.

Lemma find_last_of_slash (dir base : string) :
  occurs "/" base = false ->
  find_last_of (dir +:+ "/" +:+ base) "/" = N.of_nat (String.length dir).
Proof.
  intros H. unfold find_last_of. rewrite find_last_from_app.
  change ("/" +:+ base) with (String "/" base).
  cbn [find_last_from]. rewrite Ascii.eqb_refl.
  now rewrite find_last_from_absent.
Qed.

Lemma length_append (a b : string) :
  String.length (a +:+ b) = (String.length a + String.length b)%nat.
Proof.
  induction a as [|c a IH]; [reflexivity |].
  rewrite append_cons. cbn [String.length]. now rewrite IH.
Qed.

Lemma substring_prefix (a b : string) :
  String.substring 0 (String.length a) (a +:+ b) = a.
Proof.
  induction a as [|c a IH].
  - cbn. now destruct b.
  - rewrite append_cons. cbn [String.length String.substring]. now rewrite IH.
Qed.

Lemma dir_of_slash (dir base : string) :
  occurs "/" base = false ->
  (N.of_nat (String.length (dir +:+ "/" +:+ base)) < 2 ^ size_bits)%N ->
  dir_of (dir +:+ "/" +:+ base) = dir +:+ "/".
Proof.
  intros Hbase Hsize. unfold dir_of. rewrite (find_last_of_slash _ _ Hbase).
  rewrite !length_append in *. change (String.length "/") with 1%nat in *.
  unfold size_wrap. rewrite N.mod_small by lia.
  rewrite N.min_l by lia.
  replace (N.to_nat (N.of_nat (String.length dir) + 1))
    with (String.length (dir +:+ "/"))
    by (rewrite length_append; cbn [String.length]; lia).
  rewrite <- append_assoc. apply substring_prefix.
Qed.

Lemma dir_of_no_slash (filename : string) :
  occurs "/" filename = false -> dir_of filename = "".
Proof.
  intros H. unfold dir_of, find_last_of. rewrite (find_last_from_absent _ _ _ _ H).
  change (size_wrap (npos + 1)) with 0%N. rewrite N.min_0_l.
  now destruct filename.
Qed.

(** The rule of shape equality. *)
Lemma shape_ne_false (a b : Shape) :
  shape_ne a b = false
  <-> length a = length b /\ forall i : nat, a !! i = b !! i.
Proof.
  unfold shape_ne. rewrite negb_false_iff, bool_decide_eq_true. split.
  - now intros ->.
  - intros [_ H]. now apply list_eq.
Qed.

End Binaries.

Example shape_mismatch_reported :
  check_tensor sample_print_shape sample_files sample_read_tensor_header
    "models/net.nnef" ("t4", [1; 3; 224; 224]%N) world0
  = (Done tt,
     err_app (open_app world0 ["models/t4.dat"])
       ("Shape [1,3,225,224] in tensor file 'models/t4.dat' does not match shape "
          +:+ "[1,3,224,224] defined in network structure" +:+ endl)).
Proof. reflexivity. Qed.

Example header_failure_reported :
  check_tensor sample_print_shape sample_files sample_read_tensor_header
    "models/net.nnef" ("t5", [1]%N) world0
  = (Done tt,
     err_app (open_app world0 ["models/t5.dat"])
       ("Failed to read binary header from file: models/t5.dat" +:+ endl)).
Proof. reflexivity. Qed.

Example binaryFilename_without_directory :
  binaryFilename_of "net.nnef" "t1" world0 = (Done "t1.dat", world0).
Proof. reflexivity. Qed.

(** ** The option loop *)

Lemma argv_at_some (argv : list string) (i : nat) (a : string) :
  argv !! i = Some a -> argv_at argv i = mret (Some a).
Proof. intros H. unfold argv_at. now rewrite H. Qed.

Lemma argv_at_end (argv : list string) (i : nat) :
  i = length argv -> argv_at argv i = mret None.
Proof.
  intros ->. unfold argv_at.
  rewrite (proj2 (lookup_ge_None argv (length argv))) by lia.
  now rewrite Nat.eqb_refl.
Qed.

(** Given as many rounds as there are arguments, the loop over the indices
    does what [options_of] does on the arguments from [argv[i]] on; it never
    runs out of rounds. *)
Lemma options_loop_of (fuel : nat) (argv : list string) (i : nat) (o : Options)
    (w : World) :
  length argv <= i + fuel ->
  options_loop fuel argv i o w = options_of (drop i argv) o w.
Proof.
  revert i o w. induction fuel as [|fuel IH]; intros i o w Hfuel.
  - cbn [options_loop].
    assert ((i <? length argv)%nat = false) as -> by (apply Nat.ltb_ge; lia).
    now rewrite drop_ge by lia.
  - cbn [options_loop]. destruct (i <? length argv)%nat eqn:E.
    + apply Nat.ltb_lt in E.
      destruct (lookup_lt_is_Some_2 argv i E) as [a Ha].
      rewrite (drop_S _ _ _ Ha). cbn [options_of].
      rewrite (argv_at_some _ _ _ Ha), ret_bind. cbn [strcmp_eq]. rewrite ret_bind.
      destruct (String.eqb a "--flat"); [apply IH; lia |].
      rewrite ret_bind.
      destruct (String.eqb a "--layers"); [apply IH; lia |].
      rewrite ret_bind.
      destruct (String.eqb a "--binary"); [apply IH; lia |].
      rewrite ret_bind.
      destruct (String.eqb a "--atomics").
      * destruct (argv !! S i) as [value|] eqn:Hv.
        -- rewrite (argv_at_some _ _ _ Hv), (drop_S _ _ _ Hv), ret_bind, !bind_run.
           destruct (parseAtomics (Some value) w) as [[parsed|f] w']; [| reflexivity].
           apply IH. lia.
        -- apply lookup_ge_None in Hv.
           rewrite argv_at_end by lia. now rewrite drop_ge by lia.
      * cbn [strlen_deref]. rewrite ret_bind, !put_err_bind. apply IH. lia.
    + apply Nat.ltb_ge in E. now rewrite drop_ge by lia.
Qed.

Lemma options_of_run (n : nat) (rest : list string) (o : Options) (w : World) :
  length rest <= n ->
  if atomics_followed rest
  then exists o' w', options_of rest o w = (Done o', w')
  else exists w', options_of rest o w = (Raise NullPointer, w').
Proof.
  revert rest o w. induction n as [|n IH]; intros rest o w Hn.
  - destruct rest; [| cbn in Hn; lia]. cbn. eauto.
  - destruct rest as [|a rest]; [cbn; eauto |].
    cbn in Hn. cbn [options_of atomics_followed].
    destruct (String.eqb a "--flat") eqn:Eflat.
    { apply String.eqb_eq in Eflat as ->. cbn. apply IH. lia. }
    destruct (String.eqb a "--layers") eqn:Elayers.
    { apply String.eqb_eq in Elayers as ->. cbn. apply IH. lia. }
    destruct (String.eqb a "--binary") eqn:Ebinary.
    { apply String.eqb_eq in Ebinary as ->. cbn. apply IH. lia. }
    destruct (String.eqb a "--atomics").
    + destruct rest as [|value rest]; [exists w; reflexivity |].
      rewrite (bind_done _ _ _ _ _ (parseAtomics_run value w)).
      apply IH. cbn in Hn. lia.
    + rewrite !put_err_bind. apply IH. lia.
Qed.

Lemma atomics_followed_last (pre : list string) :
  "--atomics" ∉ pre -> atomics_followed (pre ++ ["--atomics"]) = false.
Proof.
  induction pre as [|a pre IH]; intros H; [reflexivity |].
  cbn [app atomics_followed].
  destruct (String.eqb a "--atomics") eqn:E.
  - apply String.eqb_eq in E as ->. exfalso. apply H. left.
  - apply IH. intros Hin. apply H. now right.
Qed.

(** ** [main] *)

Section Driver.

Context {Value : Type} (print_value : Value -> string)
        (print_shape : Shape -> string)
        (Callback_isAtomic : Prototype.t -> Dictionary Value -> bool)
        {File : Type} (files : string -> option File)
        (read_tensor_header : File -> option TensorHeader)
        (parse : ParserKind -> File -> @Callback Value -> IO Parsed).

Local Abbreviation main' :=
  (main print_value print_shape Callback_isAtomic files read_tensor_header parse).
Local Abbreviation parse_and_report' :=
  (parse_and_report print_value Callback_isAtomic parse).
Local Abbreviation check_binaries' :=
  (check_binaries print_shape files read_tensor_header).
Local Abbreviation tensor_report' :=
  (tensor_report print_shape files read_tensor_header).

(** [main] up to the option loop. *)
Lemma main_options (argv : list string) (filename : string) (is_ : File) (w : World) :
  argv !! 1%nat = Some filename ->
  files filename = Some is_ ->
  main' argv w
  = (o ← options_of (drop 2 argv) options0 ;
     r ← parse_and_report' o is_ ;
     check_binaries' o filename r ;;
     mret 0%Z) (open_app w [filename]).
Proof.
  intros Harg Hfile. unfold main.
  assert ((length argv <? 2)%nat = false) as ->.
  { apply Nat.ltb_ge. apply lookup_lt_Some in Harg. lia. }
  rewrite (argv_at_some _ _ _ Harg), ret_bind. cbn [strlen_deref]. rewrite ret_bind.
  unfold ifstream at 1. rewrite bind_run, Hfile.
  rewrite !bind_run. rewrite options_loop_of by lia. reflexivity.
Qed.

(** [main] from the parser's return on. *)
Lemma main_run (argv : list string) (filename : string) (is_ : File)
    (o : Options) (r : Parsed) (w w2 w3 : World) :
  argv !! 1%nat = Some filename ->
  files filename = Some is_ ->
  options_loop (length argv) argv 2 options0 (open_app w [filename]) = (Done o, w2) ->
  parse_and_report' o is_ w2 = (Done r, w3) ->
  main' argv w
  = match check_binaries' o filename r w3 with
    | (Done _, w4) => (Done 0%Z, w4)
    | (Raise f, w4) => (Raise f, w4)
    end.
Proof.
  intros Harg Hfile Hopt Hparse.
  rewrite (main_options _ _ _ _ Harg Hfile).
  rewrite options_loop_of in Hopt by lia.
  rewrite (bind_done _ _ _ _ _ Hopt), (bind_done _ _ _ _ _ Hparse).
  rewrite bind_run. destruct (check_binaries' o filename r w3) as [[[]|f] w4]; reflexivity.
Qed.

Lemma check_binaries_run (o : Options) (filename : string) (r : Parsed) (w : World) :
  check_binaries' o filename r w
  = (Done tt,
     if binary o
     then mkWorld (cout w)
            (cerr w +:+ String.concat "" (map (tensor_report' filename) (variableShapes r)))
            (opened w ++ map (tensor_path filename) (variableShapes r))
     else w).
Proof.
  unfold check_binaries, when_. destruct (binary o); [| reflexivity].
  apply for_each_check_tensor.
Qed.

(** C6, as the code has it: once the parser has returned or thrown, the
    check of the binary files depends on the [--binary] option alone.
    With the option, [main] opens the file of every variable the callback
    has recorded, after a parse error as after a successful parse;
    without it, [main] opens none and ends in the state the parse phase
    left. *)
Theorem validation_follows_binary_option (argv : list string) (filename : string)
    (is_ : File) (o : Options) (r : Parsed) (w w2 w3 : World) :
  argv !! 1%nat = Some filename ->
  files filename = Some is_ ->
  options_loop (length argv) argv 2 options0 (open_app w [filename]) = (Done o, w2) ->
  parse_and_report' o is_ w2 = (Done r, w3) ->
  exists w4,
    main' argv w = (Done 0%Z, w4)
    /\ cout w4 = cout w3
    /\ opened w4
       = (opened w3
            ++ (if binary o then map (tensor_path filename) (variableShapes r) else []))%list
    /\ (binary o = false -> w4 = w3).
Proof.
  intros Harg Hfile Hopt Hparse.
  rewrite (main_run _ _ _ _ _ _ _ _ Harg Hfile Hopt Hparse), check_binaries_run.
  eexists. split; [reflexivity |].
  destruct (binary o); cbn [cout opened].
  - split; [reflexivity |]. split; [reflexivity | discriminate].
  - split; [reflexivity |]. split; [now rewrite app_nil_r | reflexivity].
Qed.

(** C7: when the binary files are checked, every recorded entry is
    evaluated, in order, whatever happened to the entries before it: the
    file of each one is opened, standard error receives the report of
    each one (nothing for a match; the open failure, the header failure or
    the mismatch otherwise), the report of an entry depending on that
    entry alone, and [main] returns 0. *)
Theorem validation_partial_failure (argv : list string) (filename : string)
    (is_ : File) (o : Options) (r : Parsed) (w w2 w3 : World) :
  argv !! 1%nat = Some filename ->
  files filename = Some is_ ->
  options_loop (length argv) argv 2 options0 (open_app w [filename]) = (Done o, w2) ->
  parse_and_report' o is_ w2 = (Done r, w3) ->
  binary o = true ->
  main' argv w
  = (Done 0%Z,
     mkWorld (cout w3)
       (cerr w3 +:+ String.concat "" (map (tensor_report' filename) (variableShapes r)))
       (opened w3 ++ map (tensor_path filename) (variableShapes r))).
Proof.
  intros Harg Hfile Hopt Hparse Hbinary.
  rewrite (main_run _ _ _ _ _ _ _ _ Harg Hfile Hopt Hparse), check_binaries_run.
  now rewrite Hbinary.
Qed.

(** C10: [argv[argc]] is the null pointer; when [--atomics] is the last
    argument and the loop takes it as an option, [main] passes that null
    pointer to [parseAtomics], whose [strlen] faults on it; the loop is
    safe exactly when every [--atomics] it takes as an option is followed
    by an argument. *)
Theorem atomics_needs_value :
  (forall argv w, argv_at argv (length argv) w = (Done None, w))
  /\ (forall w, parseAtomics None w = (Raise NullPointer, w))
  /\ (forall prog filename is_ pre w,
        files filename = Some is_ ->
        "--atomics" ∉ pre ->
        exists w', main' (prog :: filename :: pre ++ ["--atomics"]) w
                   = (Raise NullPointer, w'))
  /\ (forall argv o w,
        atomics_followed (drop 2 argv) = true ->
        exists o' w', options_loop (length argv) argv 2 o w = (Done o', w'))
  /\ (forall argv o w,
        atomics_followed (drop 2 argv) = false ->
        exists w', options_loop (length argv) argv 2 o w = (Raise NullPointer, w')).
Proof.
  split; [| split; [| split; [| split]]].
  - intros argv w. now rewrite argv_at_end.
  - reflexivity.
  - intros prog filename is_ pre w Hfile Hpre.
    rewrite (main_options _ filename is_) by (reflexivity || exact Hfile).
    cbn [drop].
    pose proof (options_of_run _ (pre ++ ["--atomics"]) options0
                  (open_app w [filename]) (Nat.le_refl _)) as H.
    rewrite (atomics_followed_last _ Hpre) in H. destruct H as [w' H].
    exists w'. now rewrite (bind_raise _ _ _ _ _ H).
  - intros argv o w H. rewrite options_loop_of by lia.
    pose proof (options_of_run _ (drop 2 argv) o w (Nat.le_refl _)) as H'.
    now rewrite H in H'.
  - intros argv o w H. rewrite options_loop_of by lia.
    pose proof (options_of_run _ (drop 2 argv) o w (Nat.le_refl _)) as H'.
    now rewrite H in H'.
Qed.

End Driver.

(** *** Sample runs *)

(** C6, the claim refuted: the parser throws, the check of the binary files
    is requested, and [main] reports the error and then opens, and reports
    as missing, the file of the variable recorded before the error. *)
Lemma validation_runs_after_parse_error :
  (forall kind is_ atomics w,
      (sample_parse_error kind is_ (PrintCallback id sample_isAtomic atomics) w).1
      = Done parsed_error)
  /\ thrown parsed_error = Some error_3
  /\ sample_main sample_parse_error argv_binary world0
     = (Done 0%Z,
        mkWorld (cout world_parsed_error)
          ("Could not open file: models/t2.dat" +:+ endl)
          ["models/net.nnef"; "models/t2.dat"]).
Proof. split; [intros kind is_ atomics w | split]; reflexivity. Qed.

(** C6 as the code has it, at a run with a parse error and [--binary]: the
    file of the recorded variable is opened. *)
Lemma validation_follows_binary_option_after_error :
  argv_binary !! 1%nat = Some "models/net.nnef"
  /\ sample_files "models/net.nnef" = Some Description
  /\ options_loop (length argv_binary) argv_binary 2 options0 world_opened
     = (Done options_binary, world_opened)
  /\ parse_and_report id sample_isAtomic sample_parse_error options_binary
       Description world_opened
     = (Done parsed_error, world_parsed_error)
  /\ exists w4,
       sample_main sample_parse_error argv_binary world0 = (Done 0%Z, w4)
       /\ opened w4 = ["models/net.nnef"; "models/t2.dat"].
Proof.
  assert (Harg : argv_binary !! 1%nat = Some "models/net.nnef") by reflexivity.
  assert (Hfile : sample_files "models/net.nnef" = Some Description) by reflexivity.
  assert (Hopt : options_loop (length argv_binary) argv_binary 2 options0 world_opened
                 = (Done options_binary, world_opened)) by reflexivity.
  assert (Hparse : parse_and_report id sample_isAtomic sample_parse_error options_binary
                     Description world_opened
                   = (Done parsed_error, world_parsed_error)) by reflexivity.
  repeat (split; [assumption |]).
  destruct (validation_follows_binary_option id sample_print_shape sample_isAtomic
              sample_files sample_read_tensor_header sample_parse_error
              argv_binary _ _ _ _ world0 _ _ Harg Hfile Hopt Hparse)
    as (w4 & Hmain & _ & Hopened & _).
  exists w4. split; [exact Hmain | exact Hopened].
Defined.

(** C7 at three recorded variables of which the second has no file and the
    others match their headers: all three files are opened, the one report
    is the open failure of the second, and [main] returns 0. *)
Lemma validation_partial_failure_three :
  argv_binary !! 1%nat = Some "models/net.nnef"
  /\ sample_files "models/net.nnef" = Some Description
  /\ options_loop (length argv_binary) argv_binary 2 options0 world_opened
     = (Done options_binary, world_opened)
  /\ parse_and_report id sample_isAtomic sample_parse_ok options_binary
       Description world_opened
     = (Done parsed_ok, world_parsed_ok)
  /\ binary options_binary = true
  /\ sample_main sample_parse_ok argv_binary world0
     = (Done 0%Z,
        mkWorld (cout world_parsed_ok)
          ("Could not open file: models/t2.dat" +:+ endl)
          ["models/net.nnef"; "models/t1.dat"; "models/t2.dat"; "models/t3.dat"]).
Proof.
  assert (Harg : argv_binary !! 1%nat = Some "models/net.nnef") by reflexivity.
  assert (Hfile : sample_files "models/net.nnef" = Some Description) by reflexivity.
  assert (Hopt : options_loop (length argv_binary) argv_binary 2 options0 world_opened
                 = (Done options_binary, world_opened)) by reflexivity.
  assert (Hparse : parse_and_report id sample_isAtomic sample_parse_ok options_binary
                     Description world_opened
                   = (Done parsed_ok, world_parsed_ok)) by reflexivity.
  assert (Hbinary : binary options_binary = true) by reflexivity.
  repeat (split; [assumption |]).
  exact (validation_partial_failure id sample_print_shape sample_isAtomic
           sample_files sample_read_tensor_header sample_parse_ok
           argv_binary _ _ _ _ world0 _ _ Harg Hfile Hopt Hparse Hbinary).
Defined.

(** [--atomics] as the last argument: [main] stops at the null pointer,
    having opened the description and parsed nothing. *)
Example atomics_without_value :
  sample_main sample_parse_ok ["nnef-validator"; "models/net.nnef"; "--atomics"] world0
  = (Raise NullPointer, open_app world0 ["models/net.nnef"]).
Proof. reflexivity. Qed.

(** An [--atomics] that is the value of another [--atomics] is read as an
    override list, not as an option. *)
Example atomics_as_value :
  options_loop 4 ["nnef-validator"; "models/net.nnef"; "--atomics"; "--atomics"] 2
    options0 world0
  = (Done (mkOptions false false false (<["-atomics" := false]> ∅)), world0).
Proof. reflexivity. Qed.

Example usage_without_arguments :
  sample_main sample_parse_ok ["nnef-validator"] world0
  = (Done 0%Z, out_app world0 usage).
Proof. reflexivity. Qed.

Example description_missing :
  sample_main sample_parse_ok ["nnef-validator"; "net.nnef"] world0
  = (Done (-1)%Z,
     err_app (open_app world0 ["net.nnef"]) ("Could not open file: net.nnef" +:+ endl)).
Proof. reflexivity. Qed.

(** ** The tokens of an override list *)

Example regex_tokens_plain : regex_tokens "+a bad -b" = ["+a"; "bad"; "-b"].
Proof. reflexivity. Qed.

Example regex_tokens_empty : regex_tokens "" = [""].
Proof. reflexivity. Qed.

Example regex_tokens_leading : regex_tokens "  +a" = [""; "+a"].
Proof. reflexivity. Qed.

Example regex_tokens_trailing :
  regex_tokens ("+a" +:+ tab +:+ " -b" +:+ endl) = ["+a"; "-b"].
Proof. reflexivity. Qed.


(** * Further properties *)

(** ** The override list, as a whole *)

(** X1: on every string [parseAtomics] returns normally ([substr(1)] is
    only reached for a token that has a first character), writes one
    diagnostic line per token that starts with neither [+] nor [-] and
    nothing else to standard output, and leaves standard error and the
    files alone. *)
Theorem parseAtomics_total (s : string) (w : World) :
  exists t n,
    parseAtomics (Some s) w = (Done t, mkWorld (cout w +:+ diagnostics n) (cerr w) (opened w))
    /\ n = length (List.filter (fun token => negb (well_marked token)) (regex_tokens s)).
Proof.
  exists (table_after (regex_tokens s) ∅), (length (rejected (regex_tokens s))).
  split; [apply parseAtomics_run | reflexivity].
Qed.

Lemma table_after_lookup (tokens : list string) (m : gmap string bool) (name : string) :
  table_after tokens m !! name
  = match m !! name with
    | Some b => Some b
    | None => first_mark name tokens
    end.
Proof.
  revert m. induction tokens as [|token rest IH]; intros m.
  - cbn. now destruct (m !! name).
  - cbn [table_after first_mark]. rewrite IH.
    destruct (well_marked token) eqn:E; cbn [andb]; [| reflexivity].
    destruct (String.eqb (token_name token) name) eqn:En.
    + apply String.eqb_eq in En as <-. rewrite emplace_lookup_same.
      now destruct (m !! token_name token).
    + apply String.eqb_neq in En. now rewrite emplace_lookup_ne.
Qed.

(** X2: the table [parseAtomics] returns maps a name to the boolean of the
    first token that is marked with [+] or [-] and carries that name, and
    has no entry for a name no marked token carries. *)
Theorem parseAtomics_lookup (s : string) (w : World) :
  exists t w',
    parseAtomics (Some s) w = (Done t, w')
    /\ forall name, t !! name = first_mark name (regex_tokens s).
Proof.
  do 2 eexists. split; [apply parseAtomics_run |].
  intros name. rewrite table_after_lookup. now rewrite lookup_empty.
Qed.

(** *** White space around the list *)

Lemma tokens_snoc_space (c : ascii) (s : string) :
  isspace c = true ->
  (forall tok, in_token (s +:+ String c "") tok = in_token s tok)
  /\ in_space (s +:+ String c "") = in_space s.
Proof.
  intros Hc. induction s as [|x s [IHt IHs]].
  - split; [intros tok |]; rewrite append_nil_l; cbn [in_token in_space];
      now rewrite Hc.
  - split; [intros tok |]; rewrite append_cons; cbn [in_token in_space];
      destruct (isspace x); now rewrite ?IHt, ?IHs.
Qed.

Lemma regex_tokens_trailing_blank (s ws : string) :
  blank ws = true -> regex_tokens (s +:+ ws) = regex_tokens s.
Proof.
  revert s. induction ws as [|c ws IH]; intros s H.
  - now rewrite append_nil_r.
  - cbn in H. apply andb_true_iff in H as [Hc Hws].
    change (String c ws) with (String c "" +:+ ws).
    rewrite <- append_assoc, (IH _ Hws).
    unfold regex_tokens. now apply tokens_snoc_space.
Qed.

(** X3: white space after the last token of the override list changes
    nothing: the table and the diagnostics are those of the list without
    it. *)
Theorem parseAtomics_trailing_space (s ws : string) (w : World) :
  blank ws = true ->
  parseAtomics (Some (s +:+ ws)) w = parseAtomics (Some s) w.
Proof.
  intros H. rewrite !parseAtomics_run. now rewrite (regex_tokens_trailing_blank _ _ H).
Qed.

Lemma parseAtomics_trailing_space_tab :
  blank (tab +:+ " ") = true
  /\ parseAtomics (Some ("+a -b" +:+ (tab +:+ " "))) world0
     = parseAtomics (Some "+a -b") world0.
Proof.
  assert (H : blank (tab +:+ " ") = true) by reflexivity.
  split; [exact H |].
  exact (parseAtomics_trailing_space "+a -b" (tab +:+ " ") world0 H).
Defined.

Lemma table_after_in_space (s : string) (m : gmap string bool) :
  table_after (in_space s) m = table_after (regex_tokens s) m.
Proof.
  unfold regex_tokens. destruct s as [|x s]; [reflexivity |].
  cbn [in_space in_token]. now destruct (isspace x).
Qed.

(** X4: white space before the first token makes the iterator yield an
    empty first token: the list gets a diagnostic for it, and otherwise
    the table of the list without that white space. *)
Theorem parseAtomics_leading_space (c : ascii) (s : string) (w : World) :
  isspace c = true ->
  exists t n w',
    parseAtomics (Some (String c s)) w = (Done t, out_app w (diagnostics (S n)))
    /\ parseAtomics (Some s) w = (Done t, w').
Proof.
  intros Hc. exists (table_after (regex_tokens s) ∅), (length (rejected (in_space s))).
  eexists. split; [| apply parseAtomics_run].
  rewrite parseAtomics_run. unfold regex_tokens at 1 2. cbn [in_token]. rewrite Hc.
  cbn [table_after rejected List.filter well_marked front0 Ascii.eqb].
  change (well_marked "") with false. cbn [negb length].
  now rewrite table_after_in_space.
Qed.

Lemma parseAtomics_leading_space_a :
  isspace " " = true
  /\ exists t n w',
       parseAtomics (Some " +a") world0 = (Done t, out_app world0 (diagnostics (S n)))
       /\ parseAtomics (Some "+a") world0 = (Done t, w').
Proof.
  assert (H : isspace " " = true) by reflexivity.
  split; [exact H |].
  exact (parseAtomics_leading_space " " "+a" world0 H).
Defined.

(** *** The names in the table *)

Lemma no_space_snoc (tok : string) (x : ascii) :
  no_space (tok +:+ String x "") = no_space tok && negb (isspace x).
Proof.
  induction tok as [|c tok IH].
  - rewrite append_nil_l. cbn. now rewrite andb_true_r.
  - rewrite append_cons. cbn [no_space]. rewrite IH. now rewrite andb_assoc.
Qed.

Lemma tokens_no_space (s : string) :
  (forall tok, no_space tok = true -> Forall (fun t => no_space t = true) (in_token s tok))
  /\ Forall (fun t => no_space t = true) (in_space s).
Proof.
  induction s as [|x s [IHt IHs]].
  - split; [intros tok H |]; cbn; auto.
  - split; [intros tok H |]; cbn [in_token in_space]; destruct (isspace x) eqn:Ex.
    + constructor; assumption.
    + apply IHt. now rewrite no_space_snoc, H, Ex.
    + exact IHs.
    + apply IHt. cbn. now rewrite Ex.
Qed.

Lemma first_mark_Some (name : string) (tokens : list string) (b : bool) :
  first_mark name tokens = Some b ->
  exists token,
    token ∈ tokens /\ well_marked token = true /\ token_name token = name
    /\ b = Ascii.eqb (front0 token) "+".
Proof.
  induction tokens as [|t rest IH]; [discriminate |].
  cbn [first_mark].
  destruct (well_marked t && String.eqb (token_name t) name) eqn:E.
  - intros [= <-]. apply andb_true_iff in E as [Hm Hn].
    apply String.eqb_eq in Hn. exists t. repeat split; [left | assumption..].
  - intros H. destruct (IH H) as (token & Hin & Hrest). exists token.
    split; [now right | exact Hrest].
Qed.

Lemma no_space_token_name (token : string) :
  no_space token = true -> no_space (token_name token) = true.
Proof.
  destruct token as [|c rest]; [reflexivity |]. cbn.
  intros H. now apply andb_true_iff in H as [_ H].
Qed.

(** X5: no name in the table [parseAtomics] returns holds a white-space
    character. *)
Theorem parseAtomics_names_no_space (s : string) (w w' : World)
    (t : gmap string bool) (name : string) (b : bool) :
  parseAtomics (Some s) w = (Done t, w') ->
  t !! name = Some b ->
  no_space name = true.
Proof.
  rewrite parseAtomics_run. intros [= <- _] H.
  rewrite table_after_lookup, lookup_empty in H.
  apply first_mark_Some in H as (token & Hin & _ & <- & _).
  apply no_space_token_name.
  destruct (tokens_no_space s) as [Ht _].
  specialize (Ht "" eq_refl). rewrite Forall_forall in Ht. now apply Ht.
Qed.

Lemma parseAtomics_names_no_space_ab :
  parseAtomics (Some "+a bad -b") world0
  = (Done (<["a" := true]> (<["b" := false]> ∅)),
     out_app world0 (atomics_diagnostic +:+ endl))
  /\ (<["a" := true]> (<["b" := false]> ∅) : gmap string bool) !! "b" = Some false
  /\ no_space "b" = true.
Proof.
  assert (H1 : parseAtomics (Some "+a bad -b") world0
               = (Done (<["a" := true]> (<["b" := false]> ∅)),
                  out_app world0 (atomics_diagnostic +:+ endl))) by reflexivity.
  assert (H2 : (<["a" := true]> (<["b" := false]> ∅) : gmap string bool) !! "b"
               = Some false) by reflexivity.
  split; [exact H1 |]. split; [exact H2 |].
  exact (parseAtomics_names_no_space _ _ _ _ _ _ H1 H2).
Defined.

(** *** The order of the tokens *)

Lemma filter_Permutation_stdlib {A} (f : A -> bool) (l l' : list A) :
  l ≡ₚ l' -> List.filter f l ≡ₚ List.filter f l'.
Proof.
  induction 1 as [|x l l' _ IH|x y l|l l' l'' _ IH1 _ IH2]; cbn.
  - constructor.
  - destruct (f x); [now constructor | exact IH].
  - destruct (f x), (f y); try reflexivity. apply perm_swap.
  - now transitivity (List.filter f l').
Qed.

Lemma marked_names_Permutation (tokens tokens' : list string) :
  tokens ≡ₚ tokens' -> marked_names tokens ≡ₚ marked_names tokens'.
Proof.
  intros H. unfold marked_names. apply Permutation_map.
  now apply filter_Permutation_stdlib.
Qed.

Lemma marked_names_elem (tokens : list string) (token : string) :
  token ∈ tokens -> well_marked token = true ->
  token_name token ∈ marked_names tokens.
Proof.
  intros Hin Hm. unfold marked_names. apply list_elem_of_In, in_map.
  apply filter_In. split; [now apply list_elem_of_In | exact Hm].
Qed.

Lemma first_mark_unique (tokens : list string) (token : string) :
  NoDup (marked_names tokens) ->
  token ∈ tokens -> well_marked token = true ->
  first_mark (token_name token) tokens = Some (Ascii.eqb (front0 token) "+").
Proof.
  induction tokens as [|t rest IH]; intros Hnd Hin Hm.
  - now apply not_elem_of_nil in Hin.
  - cbn [first_mark]. unfold marked_names in Hnd. cbn [List.filter] in Hnd.
    destruct (well_marked t) eqn:Et; cbn [andb].
    + cbn [map] in Hnd. apply NoDup_cons in Hnd as [Hfresh Hnd].
      destruct (String.eqb (token_name t) (token_name token)) eqn:En.
      * apply elem_of_cons in Hin as [-> | Hin]; [reflexivity |].
        apply String.eqb_eq in En. exfalso. apply Hfresh. rewrite En.
        now apply marked_names_elem.
      * apply elem_of_cons in Hin as [-> | Hin].
        -- now rewrite String.eqb_refl in En.
        -- now apply IH.
    + apply elem_of_cons in Hin as [-> | Hin]; [congruence |]. now apply IH.
Qed.

Lemma first_mark_Permutation (tokens tokens' : list string) (name : string) :
  tokens ≡ₚ tokens' -> NoDup (marked_names tokens) ->
  first_mark name tokens = first_mark name tokens'.
Proof.
  intros Hp Hnd.
  assert (Hnd' : NoDup (marked_names tokens'))
    by now rewrite <- (marked_names_Permutation _ _ Hp).
  destruct (first_mark name tokens) as [b|] eqn:E.
  - apply first_mark_Some in E as (token & Hin & Hm & <- & ->).
    symmetry. apply first_mark_unique; [assumption | now rewrite <- Hp | assumption].
  - destruct (first_mark name tokens') as [b'|] eqn:E'; [| reflexivity].
    apply first_mark_Some in E' as (token & Hin & Hm & <- & ->).
    rewrite first_mark_unique in E; [discriminate | assumption | now rewrite Hp | assumption].
Qed.

(** X6: when no two marked tokens carry the same name, the order of the
    tokens does not matter: the loop of [parseAtomics] gives the same table
    and the same diagnostics for every rearrangement of them. *)
Theorem parseAtomics_loop_order (tokens tokens' : list string)
    (m : gmap string bool) (w : World) :
  tokens ≡ₚ tokens' ->
  NoDup (marked_names tokens) ->
  parseAtomics_loop tokens m w = parseAtomics_loop tokens' m w.
Proof.
  intros Hp Hnd. rewrite !parseAtomics_loop_run. f_equal.
  - f_equal. apply map_eq. intros name. rewrite !table_after_lookup.
    now rewrite (first_mark_Permutation _ _ name Hp Hnd).
  - do 2 f_equal. unfold rejected.
    apply Permutation_length. now apply filter_Permutation_stdlib.
Qed.

Lemma parseAtomics_loop_order_ab :
  ["+a"; "bad"; "-b"] ≡ₚ ["-b"; "+a"; "bad"]
  /\ NoDup (marked_names ["+a"; "bad"; "-b"])
  /\ parseAtomics_loop ["+a"; "bad"; "-b"] ∅ world0
     = parseAtomics_loop ["-b"; "+a"; "bad"] ∅ world0.
Proof.
  assert (Hp : ["+a"; "bad"; "-b"] ≡ₚ ["-b"; "+a"; "bad"]).
  { transitivity ["+a"; "-b"; "bad"]; [apply perm_skip, perm_swap | apply perm_swap]. }
  assert (Hnd : NoDup (marked_names ["+a"; "bad"; "-b"])).
  { cbn. apply NoDup_cons. split; [| apply NoDup_singleton].
    intros Hin. apply list_elem_of_singleton in Hin. discriminate Hin. }
  split; [exact Hp |]. split; [exact Hnd |].
  exact (parseAtomics_loop_order _ _ ∅ world0 Hp Hnd).
Defined.

(** *** Classification under an override list *)

Section Classification.

Context {Value : Type}.
Variable Callback_isAtomic : Prototype.t -> Dictionary Value -> bool.

(** X7: with the table of an override list, [isAtomic] answers for a
    signature with the boolean of the first marked token that carries the
    signature's name, and with the built-in classification when no marked
    token carries it. *)
Theorem isAtomic_after_parseAtomics (s : string) (proto : Prototype.t)
    (args : Dictionary Value) (w : World) :
  exists t w',
    parseAtomics (Some s) w = (Done t, w')
    /\ isAtomic Callback_isAtomic t proto args
       = match first_mark (Prototype.name proto) (regex_tokens s) with
         | Some b => b
         | None => Callback_isAtomic proto args
         end.
Proof.
  do 2 eexists. split; [apply parseAtomics_run |].
  unfold isAtomic. now rewrite table_after_lookup, lookup_empty.
Qed.

End Classification.

(** ** The options *)

Lemma mentions_cons (flag a : string) (rest : list string) :
  bool_decide (flag ∈ a :: rest) = String.eqb a flag || bool_decide (flag ∈ rest).
Proof.
  destruct (String.eqb a flag) eqn:E.
  - apply String.eqb_eq in E as ->. apply bool_decide_eq_true_2. left.
  - apply String.eqb_neq in E. cbn [orb]. apply bool_decide_ext.
    rewrite elem_of_cons. split; [intros [-> | H]; [congruence | exact H] | now right].
Qed.

Lemma unrecognized_text_cons (a : string) (rest : list string) :
  unrecognized_text (a :: rest)
  = (if is_flag a then "" else "unrecognized option: " +:+ a +:+ endl)
      +:+ unrecognized_text rest.
Proof.
  unfold unrecognized_text. cbn [List.filter].
  destruct (is_flag a); cbn [negb map]; [reflexivity |].
  now rewrite concat_empty_cons, !append_assoc.
Qed.

Lemma options_of_flags (rest : list string) (o : Options) (w : World) :
  "--atomics" ∉ rest ->
  options_of rest o w
  = (Done (mkOptions (flat o || bool_decide ("--flat" ∈ rest))
                     (layers o || bool_decide ("--layers" ∈ rest))
                     (binary o || bool_decide ("--binary" ∈ rest))
                     (atomics o)),
     err_app w (unrecognized_text rest)).
Proof.
  revert o w. induction rest as [|a rest IH]; intros o w Hno.
  - cbn. rewrite !orb_false_r, err_app_nil. now destruct o.
  - assert (Hrest : "--atomics" ∉ rest) by (intros H; apply Hno; now right).
    assert (Ea : String.eqb a "--atomics" = false).
    { apply String.eqb_neq. intros ->. apply Hno. left. }
    cbn [options_of]. rewrite !mentions_cons, unrecognized_text_cons. unfold is_flag.
    destruct (String.eqb a "--flat") eqn:E1.
    { rewrite IH by exact Hrest. apply String.eqb_eq in E1 as ->.
      cbn [flat layers binary atomics String.eqb Ascii.eqb Bool.eqb orb andb].
      now rewrite orb_true_r, append_nil_l. }
    destruct (String.eqb a "--layers") eqn:E2.
    { rewrite IH by exact Hrest. apply String.eqb_eq in E2 as ->.
      cbn [flat layers binary atomics String.eqb Ascii.eqb Bool.eqb orb andb].
      now rewrite orb_true_r, append_nil_l. }
    destruct (String.eqb a "--binary") eqn:E3.
    { rewrite IH by exact Hrest. apply String.eqb_eq in E3 as ->.
      cbn [flat layers binary atomics String.eqb Ascii.eqb Bool.eqb orb andb].
      now rewrite orb_true_r, append_nil_l. }
    rewrite Ea. rewrite !put_err_bind, IH by exact Hrest.
    cbn [orb negb]. now rewrite !err_app_app, !append_assoc.
Qed.

(** X8: when none of the arguments after the file name is [--atomics], the
    option loop ends normally; each of [flat], [layers] and [binary] is set
    iff its option occurs among the arguments, at any place and any number
    of times; every other argument gets one [unrecognized option] line on
    standard error, in order, and changes nothing else. *)
Theorem options_loop_flags (argv : list string) (o : Options) (w : World) :
  "--atomics" ∉ drop 2 argv ->
  options_loop (length argv) argv 2 o w
  = (Done (mkOptions (flat o || bool_decide ("--flat" ∈ drop 2 argv))
                     (layers o || bool_decide ("--layers" ∈ drop 2 argv))
                     (binary o || bool_decide ("--binary" ∈ drop 2 argv))
                     (atomics o)),
     err_app w (unrecognized_text (drop 2 argv))).
Proof.
  intros H. rewrite options_loop_of by lia. now apply options_of_flags.
Qed.

Lemma options_loop_flags_sample :
  ("--atomics" ∉ drop 2 ["nnef-validator"; "net.nnef"; "--binary"; "-v"; "--flat"; "--binary"])
  /\ options_loop 6 ["nnef-validator"; "net.nnef"; "--binary"; "-v"; "--flat"; "--binary"]
       2 options0 world0
     = (Done (mkOptions true false true ∅),
        err_app world0 ("unrecognized option: -v" +:+ endl)).
Proof.
  assert (H : "--atomics" ∉ drop 2 ["nnef-validator"; "net.nnef"; "--binary"; "-v";
                                     "--flat"; "--binary"]).
  { cbn [drop]. intros Hin. repeat (apply elem_of_cons in Hin as [Hin | Hin];
      [discriminate Hin |]). now apply not_elem_of_nil in Hin. }
  split; [exact H |].
  exact (options_loop_flags
           ["nnef-validator"; "net.nnef"; "--binary"; "-v"; "--flat"; "--binary"]
           options0 world0 H).
Defined.

Lemma options_of_app (n : nat) (pre rest : list string) (o : Options) (w : World) :
  length pre <= n ->
  atomics_followed pre = true ->
  options_of (pre ++ rest) o w = (o1 ← options_of pre o ; options_of rest o1) w.
Proof.
  revert pre o w. induction n as [|n IH]; intros pre o w Hn Hpre.
  - destruct pre; [reflexivity | cbn in Hn; lia].
  - destruct pre as [|a pre]; [reflexivity |].
    cbn in Hn. rewrite bind_run. cbn [app options_of]. cbn [atomics_followed] in Hpre.
    destruct (String.eqb a "--flat") eqn:E1.
    { apply String.eqb_eq in E1. subst a. cbn in Hpre.
      rewrite IH by (lia || exact Hpre). apply bind_run. }
    destruct (String.eqb a "--layers") eqn:E2.
    { apply String.eqb_eq in E2. subst a. cbn in Hpre.
      rewrite IH by (lia || exact Hpre). apply bind_run. }
    destruct (String.eqb a "--binary") eqn:E3.
    { apply String.eqb_eq in E3. subst a. cbn in Hpre.
      rewrite IH by (lia || exact Hpre). apply bind_run. }
    destruct (String.eqb a "--atomics").
    + destruct pre as [|value pre]; [discriminate |]. cbn [app].
      rewrite !(bind_done _ _ _ _ _ (parseAtomics_run value w)).
      rewrite IH by (cbn in Hn; lia || exact Hpre). apply bind_run.
    + rewrite !put_err_bind. rewrite IH by (lia || exact Hpre). apply bind_run.
Qed.

(** X9: override lists do not add up: when [--atomics] is given more than
    once, the table [main] goes on with is that of the value of the last
    one alone. *)
Theorem options_loop_last_atomics (prog file value : string) (pre post : list string)
    (o : Options) (w : World) :
  atomics_followed pre = true ->
  "--atomics" ∉ post ->
  exists o' w',
    options_loop (length (prog :: file :: pre ++ "--atomics" :: value :: post))
      (prog :: file :: pre ++ "--atomics" :: value :: post) 2 o w
    = (Done o', w')
    /\ atomics o' = table_after (regex_tokens value) ∅.
Proof.
  intros Hpre Hpost. rewrite options_loop_of by lia. cbn [drop]. rewrite drop_0.
  rewrite (options_of_app _ pre _ o w (Nat.le_refl _) Hpre).
  pose proof (options_of_run _ pre o w (Nat.le_refl _)) as Hrun.
  rewrite Hpre in Hrun. destruct Hrun as (o1 & w1 & Hrun).
  rewrite (bind_done _ _ _ _ _ Hrun). cbn [options_of String.eqb Ascii.eqb Bool.eqb andb].
  rewrite (bind_done _ _ _ _ _ (parseAtomics_run value w1)).
  rewrite (options_of_flags _ _ _ Hpost). do 2 eexists. split; reflexivity.
Qed.

Lemma options_loop_last_atomics_sample :
  atomics_followed ["--atomics"; "+a -b"; "--binary"] = true
  /\ ("--atomics" ∉ ["--flat"])
  /\ exists o' w',
       options_loop 8
         ["nnef-validator"; "net.nnef"; "--atomics"; "+a -b"; "--binary";
          "--atomics"; "-c"; "--flat"] 2 options0 world0
       = (Done o', w')
       /\ atomics o' = table_after (regex_tokens "-c") ∅.
Proof.
  assert (H1 : atomics_followed ["--atomics"; "+a -b"; "--binary"] = true) by reflexivity.
  assert (H2 : "--atomics" ∉ ["--flat"]).
  { intros Hin. apply list_elem_of_singleton in Hin. discriminate Hin. }
  split; [exact H1 |]. split; [exact H2 |].
  destruct (options_loop_last_atomics "nnef-validator" "net.nnef" "-c"
              ["--atomics"; "+a -b"; "--binary"] ["--flat"] options0 world0 H1 H2)
    as (o' & w' & Hrun & Htable).
  exists o', w'. split; [| exact Htable].
  rewrite <- Hrun. reflexivity.
Defined.


(** ** [main] as a whole *)

Section Outcome.

Context {Value : Type} (print_value : Value -> string)
        (print_shape : Shape -> string)
        (Callback_isAtomic : Prototype.t -> Dictionary Value -> bool)
        {File : Type} (files : string -> option File)
        (read_tensor_header : File -> option TensorHeader)
        (parse : ParserKind -> File -> @Callback Value -> IO Parsed).

Local Abbreviation main'' :=
  (main print_value print_shape Callback_isAtomic files read_tensor_header parse).
Local Abbreviation parse_and_report'' :=
  (parse_and_report print_value Callback_isAtomic parse).
Local Abbreviation check_tensor'' :=
  (check_tensor print_shape files read_tensor_header).

Lemma main_missing (argv : list string) (filename : string) (w : World) :
  argv !! 1%nat = Some filename ->
  files filename = None ->
  main'' argv w
  = (Done (-1)%Z,
     err_app (open_app w [filename]) ("Could not open file: " +:+ filename +:+ endl)).
Proof.
  intros Harg Hfile. unfold main.
  assert ((length argv <? 2)%nat = false) as ->.
  { apply Nat.ltb_ge. apply lookup_lt_Some in Harg. lia. }
  rewrite (argv_at_some _ _ _ Harg), ret_bind. cbn [strlen_deref]. rewrite ret_bind.
  unfold ifstream at 1. rewrite bind_run, Hfile.
  rewrite !put_err_bind, ret_run, !err_app_app. reflexivity.
Qed.

(** X10: when the description file cannot be opened, [main] reports it on
    standard error and returns -1 without looking at any further argument:
    no option is read (not even an [--atomics] without a value), nothing is
    parsed and no other file is opened. *)
Theorem main_description_missing (argv : list string) (filename : string) (w : World) :
  argv !! 1%nat = Some filename ->
  files filename = None ->
  main'' argv w
  = (Done (-1)%Z,
     mkWorld (cout w)
       (cerr w +:+ "Could not open file: " +:+ filename +:+ endl)
       (opened w ++ [filename])).
Proof. intros Harg Hfile. now rewrite (main_missing _ _ _ Harg Hfile). Qed.

(** X11: when [main] returns, it returns 0 or -1, and -1 only for a
    description file that cannot be opened: a parse error, a missing or
    unreadable tensor file and a shape mismatch all leave the result 0. *)
Theorem main_exit_code (argv : list string) (w w' : World) (code : Z) :
  main'' argv w = (Done code, w') ->
  (code = 0%Z \/ code = (-1)%Z)
  /\ (code = (-1)%Z
      <-> exists filename, argv !! 1%nat = Some filename /\ files filename = None).
Proof.
  intros Hmain. destruct (argv !! 1%nat) as [filename|] eqn:Harg.
  - destruct (files filename) as [is_|] eqn:Hfile.
    + rewrite (main_options _ _ _ _ _ _ _ _ _ _ Harg Hfile) in Hmain.
      rewrite bind_run in Hmain.
      destruct (options_of (drop 2 argv) options0 (open_app w [filename]))
        as [[o|f] w2]; [| discriminate].
      rewrite bind_run in Hmain.
      destruct (parse_and_report'' o is_ w2) as [[r|f] w3]; [| discriminate].
      rewrite bind_run, check_binaries_run, ret_run in Hmain.
      injection Hmain as <- _. split; [now left |].
      split; [discriminate |]. intros (filename' & [= <-] & Hnone). congruence.
    + rewrite (main_missing _ _ _ Harg Hfile) in Hmain. injection Hmain as <- _.
      split; [now right |]. split; [| reflexivity]. intros _. now exists filename.
  - unfold main in Hmain.
    assert ((length argv <? 2)%nat = true) as E.
    { apply Nat.ltb_lt. apply lookup_ge_None in Harg. lia. }
    rewrite E, put_out_bind, ret_run in Hmain. injection Hmain as <- _.
    split; [now left |]. split; [discriminate |]. now intros (filename & [=] & _).
Qed.

(** X12: with arguments in which every [--atomics] has its value, [main]
    itself does not fault: a fault of [main] is a fault of the parse phase
    (the parser, the callback it drives, or the walk along the origins of
    the error it threw), met after the description was opened and the
    options read. *)
Theorem main_fault_from_parse (argv : list string) (w w' : World) (f : Fault) :
  atomics_followed (drop 2 argv) = true ->
  main'' argv w = (Raise f, w') ->
  exists filename is_ o w2,
    argv !! 1%nat = Some filename
    /\ files filename = Some is_
    /\ options_loop (length argv) argv 2 options0 (open_app w [filename]) = (Done o, w2)
    /\ parse_and_report'' o is_ w2 = (Raise f, w').
Proof.
  intros Hargs Hmain. destruct (argv !! 1%nat) as [filename|] eqn:Harg.
  - destruct (files filename) as [is_|] eqn:Hfile.
    + rewrite (main_options _ _ _ _ _ _ _ _ _ _ Harg Hfile) in Hmain.
      pose proof (options_of_run _ (drop 2 argv) options0 (open_app w [filename])
                    (Nat.le_refl _)) as Hrun.
      rewrite Hargs in Hrun. destruct Hrun as (o & w2 & Hrun).
      rewrite (bind_done _ _ _ _ _ Hrun), bind_run in Hmain.
      destruct (parse_and_report'' o is_ w2) as [[r|f'] w3] eqn:Hparse.
      * rewrite bind_run, check_binaries_run, ret_run in Hmain. discriminate.
      * injection Hmain as <- <-. exists filename, is_, o, w2.
        repeat split; [exact Hfile | | exact Hparse].
        now rewrite options_loop_of by lia.
    + now rewrite (main_missing _ _ _ Harg Hfile) in Hmain.
  - unfold main in Hmain.
    assert ((length argv <? 2)%nat = true) as E.
    { apply Nat.ltb_lt. apply lookup_ge_None in Harg. lia. }
    now rewrite E, put_out_bind, ret_run in Hmain.
Qed.

(** *** One tensor file *)

Lemma append_eq_self (s t : string) : s +:+ t = s -> t = "".
Proof.
  induction s as [|c s IH]; [now rewrite append_nil_l |].
  rewrite append_cons. intros [= H]. now apply IH.
Qed.

(** X14: the check of one recorded variable opens exactly the file of that
    variable, writes nothing to standard output and ends normally; it
    leaves standard error as it was iff the file can be opened, its header
    can be read and the shape in the header does not differ from the
    declared shape. *)
Theorem check_tensor_silent_iff (filename : string) (it : string * Shape) (w : World) :
  exists w',
    check_tensor'' filename it w = (Done tt, w')
    /\ cout w' = cout w
    /\ opened w' = (opened w ++ [tensor_path filename it])%list
    /\ (cerr w' = cerr w
        <-> exists bin header,
              files (tensor_path filename it) = Some bin
              /\ read_tensor_header bin = Some header
              /\ shape_ne (shape header) it.2 = false).
Proof.
  eexists. split; [apply check_tensor_run |].
  split; [reflexivity |]. split; [reflexivity |].
  cbn [cerr err_app open_app]. unfold tensor_report.
  destruct (files (tensor_path filename it)) as [bin|] eqn:Hb.
  - destruct (read_tensor_header bin) as [header|] eqn:Hh.
    + destruct (shape_ne (shape header) it.2) eqn:E.
      * split; [intros H; apply append_eq_self in H; discriminate H |].
        intros (bin' & header' & Hb' & Hh' & H). congruence.
      * split; [intros _; now exists bin, header | intros _; apply append_nil_r].
    + split; [intros H; apply append_eq_self in H; discriminate H |].
      intros (bin' & header' & Hb' & Hh' & _). congruence.
  - split; [intros H; apply append_eq_self in H; discriminate H |].
    intros (bin' & header' & Hb' & _). congruence.
Qed.

End Outcome.

Lemma main_description_missing_sample :
  ["nnef-validator"; "net.nnef"; "--atomics"] !! 1%nat = Some "net.nnef"
  /\ sample_files "net.nnef" = None
  /\ sample_main sample_parse_ok ["nnef-validator"; "net.nnef"; "--atomics"] world0
     = (Done (-1)%Z,
        mkWorld "" ("Could not open file: net.nnef" +:+ endl) ["net.nnef"]).
Proof.
  assert (H1 : ["nnef-validator"; "net.nnef"; "--atomics"] !! 1%nat = Some "net.nnef")
    by reflexivity.
  assert (H2 : sample_files "net.nnef" = None) by reflexivity.
  split; [exact H1 |]. split; [exact H2 |].
  exact (main_description_missing id sample_print_shape sample_isAtomic sample_files
           sample_read_tensor_header sample_parse_ok _ _ world0 H1 H2).
Defined.

Lemma main_exit_code_after_error :
  sample_main sample_parse_error argv_binary world0
  = (Done 0%Z,
     mkWorld (cout world_parsed_error)
       ("Could not open file: models/t2.dat" +:+ endl)
       ["models/net.nnef"; "models/t2.dat"])
  /\ (0 = 0 \/ 0 = -1)%Z
  /\ ((0 = -1)%Z
      <-> exists filename,
            argv_binary !! 1%nat = Some filename /\ sample_files filename = None).
Proof.
  assert (H : sample_main sample_parse_error argv_binary world0
              = (Done 0%Z,
                 mkWorld (cout world_parsed_error)
                   ("Could not open file: models/t2.dat" +:+ endl)
                   ["models/net.nnef"; "models/t2.dat"])) by reflexivity.
  split; [exact H |].
  exact (main_exit_code id sample_print_shape sample_isAtomic sample_files
           sample_read_tensor_header sample_parse_error _ _ _ _ H).
Defined.

Lemma main_fault_from_parse_unbound :
  atomics_followed (drop 2 argv_binary) = true
  /\ sample_main sample_parse_unbound argv_binary world0
     = (Raise (KeyNotFound "b"),
        out_app world_opened
          ("graph f( x, y ) -> ( z )" +:+ endl +:+ "{" +:+ endl
             +:+ tab +:+ "t3 = add(t1, "))
  /\ exists filename is_ o w2,
       argv_binary !! 1%nat = Some filename
       /\ sample_files filename = Some is_
       /\ options_loop (length argv_binary) argv_binary 2 options0
            (open_app world0 [filename]) = (Done o, w2)
       /\ (parse_and_report id sample_isAtomic sample_parse_unbound o is_ w2).1
          = Raise (KeyNotFound "b").
Proof.
  assert (H1 : atomics_followed (drop 2 argv_binary) = true) by reflexivity.
  assert (H2 : sample_main sample_parse_unbound argv_binary world0
               = (Raise (KeyNotFound "b"),
                  out_app world_opened
                    ("graph f( x, y ) -> ( z )" +:+ endl +:+ "{" +:+ endl
                       +:+ tab +:+ "t3 = add(t1, "))) by reflexivity.
  split; [exact H1 |]. split; [exact H2 |].
  destruct (main_fault_from_parse id sample_print_shape sample_isAtomic sample_files
              sample_read_tensor_header sample_parse_unbound _ _ _ _ H1 H2)
    as (filename & is_ & o & w2 & Ha & Hf & Ho & Hp).
  exists filename, is_, o, w2.
  split; [exact Ha |]. split; [exact Hf |]. split; [exact Ho |].
  now rewrite Hp.
Defined.

(** X13: for a description path without a slash, the index [npos] that
    [find_last_of] returns wraps to 0 when 1 is added, the directory is
    empty, and the file of a variable is [name.dat], relative to the
    working directory. *)
Theorem binaryFilename_no_directory (filename name : string) (w : World) :
  occurs "/" filename = false ->
  binaryFilename_of filename name w = (Done (name +:+ ".dat"), w).
Proof.
  intros H. rewrite binaryFilename_of_run. now rewrite (dir_of_no_slash _ H).
Qed.

Lemma binaryFilename_no_directory_net :
  occurs "/" "net.nnef" = false
  /\ binaryFilename_of "net.nnef" "conv1/filter" world0
     = (Done "conv1/filter.dat", world0).
Proof.
  assert (H : occurs "/" "net.nnef" = false) by reflexivity.
  split; [exact H |].
  exact (binaryFilename_no_directory "net.nnef" "conv1/filter" world0 H).
Defined.

(** ** The end of the error report *)

(** X15: the report of a parse error ends normally exactly when the origin
    pointers of the error's position lead to a null pointer after finitely
    many positions of the store; it then has written one line more than
    there are positions on the way. *)
Theorem report_error_ends_iff (mem : Store) (e : Error.t) (w : World) :
  (exists w', report_error mem e w = (Done tt, w'))
  <-> exists ps, origin_chain mem (Position.origin (Error.position e)) ps.
Proof.
  split.
  - intros [w' H]. exact (report_error_done _ _ _ _ H).
  - intros [ps H]. eexists. unfold report_error. rewrite put_out_bind.
    apply (walk_origins_chain _ _ _ H).
    pose proof (origin_chain_length _ _ _ H). lia.
Qed.

(** ** The directory of the tensor files *)

Lemma last_slash_split (s : string) :
  occurs "/" s = true ->
  exists dir base, s = dir +:+ "/" +:+ base /\ occurs "/" base = false.
Proof.
  induction s as [|c s IH]; [discriminate |].
  cbn [occurs]. destruct (occurs "/" s) eqn:Es.
  - intros _. destruct (IH eq_refl) as (dir & base & -> & Hbase).
    exists (String c dir), base. split; [now rewrite append_cons | exact Hbase].
  - rewrite orb_false_r. intros Hc. apply Ascii.eqb_eq in Hc as ->.
    exists "", s. split; [reflexivity | exact Es].
Qed.




(** ** The file and the shape of a recorded variable *)

Section TensorFile.

Context (print_shape : Shape -> string) {File : Type}
        (files : string -> option File)
        (read_tensor_header : File -> option TensorHeader).

Local Abbreviation check_tensor_ := (check_tensor print_shape files read_tensor_header).

Lemma dir_of_split (filename dir base : string) :
  (N.of_nat (String.length filename) < 2 ^ size_bits)%N ->
  filename = dir +:+ base ->
  occurs "/" base = false ->
  dir = "" \/ (exists parent, dir = parent +:+ "/") ->
  dir_of filename = dir.
Proof.
  intros Hsize -> Hbase [-> | [parent ->]].
  - rewrite append_nil_l. now apply dir_of_no_slash.
  - rewrite append_assoc in *. now apply dir_of_slash.
Qed.

(** C8: every description path splits into a directory part, which is
    empty or ends with a slash, and a rest without a slash: the directory
    part is the path up to and including its last slash.  For every
    recorded variable [name] the location derived, and the one file the
    check opens, is the directory part followed by [name.dat], whether or
    not that file exists.  When the file holds a header, the entry passes
    without a report if the header's shape and the declared shape have the
    same length and the same dimensions in order, and is reported as a
    mismatch if they have not. *)
Theorem check_tensor_location_and_shape :
  (forall filename,
      exists dir base,
        filename = dir +:+ base
        /\ occurs "/" base = false
        /\ (dir = "" \/ exists parent, dir = parent +:+ "/"))
  /\ (forall filename dir base name declared w,
        (N.of_nat (String.length filename) < 2 ^ size_bits)%N ->
        filename = dir +:+ base ->
        occurs "/" base = false ->
        dir = "" \/ (exists parent, dir = parent +:+ "/") ->
        binaryFilename_of filename name w = (Done (dir +:+ name +:+ ".dat"), w)
        /\ exists w',
             check_tensor_ filename (name, declared) w = (Done tt, w')
             /\ cout w' = cout w
             /\ opened w' = (opened w ++ [dir +:+ name +:+ ".dat"])%list
             /\ forall bin header,
                  files (dir +:+ name +:+ ".dat") = Some bin ->
                  read_tensor_header bin = Some header ->
                  ((length (shape header) = length declared
                    /\ forall i : nat, shape header !! i = declared !! i) ->
                   w' = open_app w [dir +:+ name +:+ ".dat"])
                  /\ (~ (length (shape header) = length declared
                         /\ forall i : nat, shape header !! i = declared !! i) ->
                      w' = err_app (open_app w [dir +:+ name +:+ ".dat"])
                             (mismatch_text print_shape (dir +:+ name +:+ ".dat")
                                (shape header) declared))).
Proof.
  split.
  - intros filename. destruct (occurs "/" filename) eqn:E.
    + destruct (last_slash_split _ E) as (parent & base & -> & Hbase).
      exists (parent +:+ "/"), base. split; [now rewrite append_assoc |].
      split; [exact Hbase | right; now exists parent].
    + exists "", filename. split; [reflexivity |]. split; [exact E | now left].
  - intros filename dir base name declared w Hsize Hsplit Hbase Hdir.
    pose proof (dir_of_split _ _ _ Hsize Hsplit Hbase Hdir) as Hd.
    assert (Hpath : tensor_path filename (name, declared) = dir +:+ name +:+ ".dat")
      by (unfold tensor_path; cbn [fst]; now rewrite Hd).
    split; [rewrite binaryFilename_of_run; now rewrite Hd |].
    eexists. split; [apply check_tensor_run |]. rewrite Hpath.
    split; [reflexivity |]. split; [reflexivity |].
    intros bin header Hfile Hheader. unfold tensor_report.
    rewrite Hpath, Hfile, Hheader. cbn [snd].
    destruct (shape_ne (shape header) declared) eqn:E.
    + split; [| reflexivity]. intros Hrule.
      apply shape_ne_false in Hrule. congruence.
    + split; [intros _; apply err_app_nil |].
      intros Hno. exfalso. apply Hno. now apply shape_ne_false.
Qed.

End TensorFile.

(** C8 at samples: for the description [net.nnef], without a directory,
    the variable [t1] is sought in [t1.dat] and reported as missing; for
    [models/net.nnef] the variable [t1] is read from [models/t1.dat] and
    passes, its header holding the declared shape, and [t4], whose header
    holds another shape, is reported. *)
Lemma check_tensor_location_and_shape_samples :
  binaryFilename_of "net.nnef" "t1" world0 = (Done "t1.dat", world0)
  /\ opened (check_tensor sample_print_shape sample_files sample_read_tensor_header
               "net.nnef" ("t1", [1; 3; 224; 224]%N) world0).2
     = ["t1.dat"]
  /\ binaryFilename_of "models/net.nnef" "t1" world0 = (Done "models/t1.dat", world0)
  /\ check_tensor sample_print_shape sample_files sample_read_tensor_header
       "models/net.nnef" ("t1", [1; 3; 224; 224]%N) world0
     = (Done tt, open_app world0 ["models/t1.dat"])
  /\ check_tensor sample_print_shape sample_files sample_read_tensor_header
       "models/net.nnef" ("t4", [1; 3; 224; 224]%N) world0
     = (Done tt,
        err_app (open_app world0 ["models/t4.dat"])
          (mismatch_text sample_print_shape "models/t4.dat"
             [1; 3; 225; 224]%N [1; 3; 224; 224]%N)).
Proof.
  destruct (check_tensor_location_and_shape sample_print_shape sample_files
              sample_read_tensor_header) as [_ Hrule].
  assert (Hsize1 : (N.of_nat (String.length "net.nnef") < 2 ^ size_bits)%N)
    by (vm_compute; reflexivity).
  assert (Hsize2 : (N.of_nat (String.length "models/net.nnef") < 2 ^ size_bits)%N)
    by (vm_compute; reflexivity).
  assert (Hbase : occurs "/" "net.nnef" = false) by reflexivity.
  assert (Hdir1 : "" = "" \/ exists parent, "" = parent +:+ "/") by (left; reflexivity).
  assert (Hdir2 : "models/" = "" \/ exists parent, "models/" = parent +:+ "/")
    by (right; exists "models"; reflexivity).
  destruct (Hrule "net.nnef" "" "net.nnef" "t1" [1; 3; 224; 224]%N world0
              Hsize1 eq_refl Hbase Hdir1)
    as (Hp1 & w1 & Hc1 & _ & Ho1 & _).
  destruct (Hrule "models/net.nnef" "models/" "net.nnef" "t1" [1; 3; 224; 224]%N world0
              Hsize2 eq_refl Hbase Hdir2)
    as (Hp2 & w2 & Hc2 & _ & _ & Hs2).
  destruct (Hrule "models/net.nnef" "models/" "net.nnef" "t4" [1; 3; 224; 224]%N world0
              Hsize2 eq_refl Hbase Hdir2)
    as (_ & w3 & Hc3 & _ & _ & Hs3).
  assert (E2 : w2 = open_app world0 ["models/t1.dat"]).
  { refine (proj1 (Hs2 _ (mkTensorHeader [1; 3; 224; 224]%N) eq_refl eq_refl) _).
    split; [reflexivity | intros i; reflexivity]. }
  assert (E3 : w3 = err_app (open_app world0 ["models/t4.dat"])
                      (mismatch_text sample_print_shape "models/t4.dat"
                         [1; 3; 225; 224]%N [1; 3; 224; 224]%N)).
  { refine (proj2 (Hs3 _ (mkTensorHeader [1; 3; 225; 224]%N) eq_refl eq_refl) _).
    intros [_ Hdims]. specialize (Hdims 2%nat). discriminate Hdims. }
  split; [exact Hp1 |].
  split; [exact (eq_trans (f_equal (fun r => opened r.2) Hc1) Ho1) |].
  split; [exact Hp2 |].
  split.
  - exact (eq_trans Hc2 (f_equal (pair (Done tt)) E2)).
  - exact (eq_trans Hc3 (f_equal (pair (Done tt)) E3)).
Defined.

